(** * altro-cpp: conic constraints, control bounds and the problem container

    A shallow embedding of
    - [altro/constraints/constraint.hpp]: the cones [ZeroCone], [IdentityCone]
      and [NegativeOrthant] with their projection, Jacobian and Hessian;
    - [examples/basic_constraints.hpp]: [GoalConstraint] and [ControlBound];
    - the [Problem] container exercised by [test/problem/problem_test.cpp].

    C++ [double] is Rocq's primitive binary64 [float], so NaN, signed zeros,
    infinities and rounding behave as on the machine.  Functions that write
    through an [Eigen::Ref] or mutate an object are computations over that
    buffer or object as state; a failed assertion aborts the computation. *)

From Stdlib Require Import Floats ZArith Lia Bool.
From stdpp Require Import base list strings sorting.

Set Default Proof Using "Type".
Open Scope float_scope.

(** ** Doubles *)

Abbreviation double := float (only parsing).

(** [std::numeric_limits<double>::max()]: the largest finite binary64. *)
Definition DBL_MAX : double := 0x1.fffffffffffffp+1023.

(** [std::min(a, b)] is [(b < a) ? b : a]. *)
Definition std_min (a b : double) : double := if b <? a then b else a.

(** ** Computations that may abort

    [M St A] is a computation over a state [St] (an output buffer, or the object
    a member function mutates).  It ends in a value or in an abort carrying the
    message of the assertion that failed; the state reached so far is kept. *)

Inductive result (A : Type) : Type :=
| Ok (a : A)
| Abort (msg : string).
Arguments Ok {A} a.
Arguments Abort {A} msg.

Definition M (St A : Type) : Type := St -> result A * St.

Definition ret {St A : Type} (a : A) : M St A := fun s => (Ok a, s).

Definition bind {St A B : Type} (k : A -> M St B) (c : M St A) : M St B :=
  fun s =>
    match c s with
    | (Ok a, s') => k a s'
    | (Abort msg, s') => (Abort msg, s')
    end.

#[global] Instance M_ret {St : Type} : MRet (M St) := @ret St.
#[global] Instance M_bind {St : Type} : MBind (M St) := @bind St.

Definition get {St : Type} : M St St := fun s => (Ok s, s).
Definition put {St : Type} (s : St) : M St unit := fun _ => (Ok tt, s).
Definition modify {St : Type} (f : St -> St) : M St unit := fun s => (Ok tt, f s).
Definition abort {St A : Type} (msg : string) : M St A := fun s => (Abort msg, s).

(** Modelled from the spec: the macro [ALTRO_ASSERT] of [altro/utils/assert.hpp],
    which is not among the sources.  A configuration fault "fails fast" and is
    "raised immediately to the caller" (spec, section 7): when the condition is
    false the computation aborts with the message.  This is the build in which
    [utils::AssertionsActive()] holds, the one the death tests exercise. *)
Definition ALTRO_ASSERT {St : Type} (cond : bool) (msg : string) : M St unit :=
  if cond then ret tt else abort msg.

(** [for (i = first; i < first + count; ++i) body(i)]. *)
Fixpoint for_loop {St : Type} (body : nat -> M St unit) (first count : nat) : M St unit :=
  match count with
  | O => ret tt
  | S count' => body first ;; for_loop body (S first) count'
  end.

(** [for (i = 0; i < n; ++i) body(i)]. *)
Definition for_range {St : Type} (n : nat) (body : nat -> M St unit) : M St unit :=
  for_loop body 0%nat n.

(** Lifting a computation on a component of the state to the whole state. *)
Definition zoom {St T A : Type} (proj : St -> T) (upd : T -> St -> St) (c : M T A) : M St A :=
  fun s => let (r, t) := c (proj s) in (r, upd t s).

(** ** Eigen vectors and matrices

    [VectorXd] is the list of its coefficients.  [MatrixXd] is the list of its
    rows; a matrix without rows has no columns either.  Reading or writing a
    coefficient outside the object trips Eigen's index assertion. *)

Abbreviation VectorXd := (list double) (only parsing).
Abbreviation MatrixXd := (list (list double)) (only parsing).

Definition rows (a : MatrixXd) : nat := length a.
Definition cols (a : MatrixXd) : nat :=
  match a with
  | [] => 0%nat
  | r :: _ => length r
  end.

(** [a(i, j)] of a matrix, when it exists. *)
Definition coeff (a : MatrixXd) (i j : nat) : option double :=
  a !! i ≫= fun r => r !! j.

(** [r x c] matrices. *)
Definition has_shape (r c : nat) (a : MatrixXd) : Prop :=
  length a = r ∧ Forall (fun row => length row = c) a.

(** Reading [v(i)], [v[i]] or [v.at(i)] of a read-only vector. *)
Definition at_ {St A : Type} (v : list A) (i : nat) : M St A :=
  match v !! i with
  | Some x => ret x
  | None => abort "index out of range"
  end.

(** The assignment [v(i) = x] to the vector in the state. *)
Definition set_coeff (i : nat) (x : double) : M VectorXd unit :=
  fun v =>
    if decide (i < length v)%nat then (Ok tt, <[i := x]> v)
    else (Abort "index out of range", v).

(** The assignment [a(i, j) = x] to the matrix in the state. *)
Definition set_coeff2 (i j : nat) (x : double) : M MatrixXd unit :=
  fun a =>
    match a !! i with
    | Some r =>
        if decide (j < length r)%nat then (Ok tt, <[i := <[j := x]> r]> a)
        else (Abort "index out of range", a)
    | None => (Abort "index out of range", a)
    end.

(** [v.setZero()] and [a.setZero()]: every coefficient becomes [0.0]. *)
Definition Vector_setZero : M VectorXd unit :=
  modify (fun v => replicate (length v) 0).
Definition Matrix_setZero : M MatrixXd unit :=
  modify (fun a => (fun r : list double => replicate (length r) 0) <$> a).

(** [a.setIdentity()]: ones on the diagonal, zeros elsewhere. *)
Definition Matrix_setIdentity : M MatrixXd unit :=
  modify (fun a =>
    imap (fun i (r : list double) =>
            imap (fun j (_ : double) => if decide (i = j) then 1 else 0) r) a).

(** ** Cones ([altro/constraints/constraint.hpp]) *)

(** The cone a constraint is tagged with: the [ConType] template argument. *)
Inductive ConType : Type :=
| Zero
| Identity
| NegOrthant.

Module ZeroCone.

(** [using DualCone = IdentityCone;] *)
Definition DualCone : ConType := Identity.

Definition Projection (x : VectorXd) : M VectorXd unit :=
  x_proj ← get;
  ALTRO_ASSERT (length x =? length x_proj)%nat "x and x_proj must be the same size";;
  Vector_setZero.

Definition Jacobian (x : VectorXd) : M MatrixXd unit :=
  Matrix_setZero.

Definition Hessian (x b : VectorXd) : M MatrixXd unit :=
  hess ← get;
  ALTRO_ASSERT (rows hess =? cols hess)%nat "Hessian must be square.";;
  ALTRO_ASSERT (length x =? length b)%nat "x and b must be the same size.";;
  Matrix_setZero.

End ZeroCone.

Module IdentityCone.

(** [using DualCone = ZeroCone;] *)
Definition DualCone : ConType := Zero.

Definition Projection (x : VectorXd) : M VectorXd unit :=
  x_proj ← get;
  ALTRO_ASSERT (length x =? length x_proj)%nat "x and x_proj must be the same size";;
  put x.

Definition Jacobian (x : VectorXd) : M MatrixXd unit :=
  jac ← get;
  ALTRO_ASSERT (rows jac =? cols jac)%nat "Jacobian must be square.";;
  Matrix_setIdentity.

Definition Hessian (x b : VectorXd) : M MatrixXd unit :=
  hess ← get;
  ALTRO_ASSERT (rows hess =? cols hess)%nat "Hessian must be square.";;
  ALTRO_ASSERT (length x =? length b)%nat "x and b must be the same size.";;
  Matrix_setZero.

End IdentityCone.

Module NegativeOrthant.

(** [using DualCone = NegativeOrthant;] *)
Definition DualCone : ConType := NegOrthant.

Definition Projection (x : VectorXd) : M VectorXd unit :=
  x_proj ← get;
  ALTRO_ASSERT (length x =? length x_proj)%nat "x and x_proj must be the same size";;
  for_range (length x) (fun i =>
    xi ← at_ x i;
    set_coeff i (std_min 0 xi)).

Definition Jacobian (x : VectorXd) : M MatrixXd unit :=
  jac ← get;
  ALTRO_ASSERT (rows jac =? cols jac)%nat "Jacobian must be square.";;
  for_range (length x) (fun i =>
    xi ← at_ x i;
    set_coeff2 i i (if 0 <? xi then 0 else 1)).

Definition Hessian (x b : VectorXd) : M MatrixXd unit :=
  hess ← get;
  ALTRO_ASSERT (rows hess =? cols hess)%nat "Hessian must be square.";;
  ALTRO_ASSERT (length x =? length b)%nat "x and b must be the same size.";;
  Matrix_setZero.

End NegativeOrthant.

(** Dispatch on the cone tag, as [ConType::DualCone] and [ConType::Projection]
    do through the template argument. *)
Definition DualCone (K : ConType) : ConType :=
  match K with
  | Zero => ZeroCone.DualCone
  | Identity => IdentityCone.DualCone
  | NegOrthant => NegativeOrthant.DualCone
  end.

Definition Projection (K : ConType) : VectorXd -> M VectorXd unit :=
  match K with
  | Zero => ZeroCone.Projection
  | Identity => IdentityCone.Projection
  | NegOrthant => NegativeOrthant.Projection
  end.

(** A constraint [g(x, u) ∈ K] seen through its interface: the virtual member
    functions of [Constraint<ConType>] the problem container calls.  A
    [ConstraintPtr<ConType>] is a handle that may be null. *)
Record Constraint (K : ConType) : Type := MkConstraint {
  GetLabel : string;
  OutputDimension : nat;
  Evaluate : VectorXd -> VectorXd -> M VectorXd unit
}.
Arguments MkConstraint {K} _ _ _.
Arguments GetLabel {K} _.
Arguments OutputDimension {K} _.
Arguments Evaluate {K} _ _ _.

Abbreviation ConstraintPtr K := (option (Constraint K)) (only parsing).

(** ** Example constraints ([examples/basic_constraints.hpp]) *)

Module GoalConstraint.

Record t : Type := Build { xf_ : VectorXd }.

Definition GetLabel (self : t) : string := "Goal Constraint".
Definition StateDimension (self : t) : nat := length (xf_ self).
Definition OutputDimension (self : t) : nat := length (xf_ self).

(** [c = x - xf_]: coefficient by coefficient, the sizes being equal. *)
Definition Evaluate (self : t) (x u : VectorXd) : M VectorXd unit :=
  c ← get;
  if ((length x =? length (xf_ self))%nat && (length c =? length x)%nat)%bool
  then put (zip_with PrimFloat.sub x (xf_ self))
  else abort "index out of range".

(** [jac.setIdentity()], whatever [x] and [u]. *)
Definition Jacobian (self : t) (x u : VectorXd) : M MatrixXd unit :=
  Matrix_setIdentity.

(** [std::make_shared<GoalConstraint>(xf)] as a [ConstraintPtr<Equality>]. *)
Definition Create (xf : VectorXd) : ConstraintPtr Zero :=
  let self := Build xf in
  Some (MkConstraint (GetLabel self) (OutputDimension self) (Evaluate self)).

End GoalConstraint.

Module ControlBound.

Record t : Type := Build {
  m_ : nat;
  lower_bound_ : list double;
  upper_bound_ : list double;
  index_lower_bound_ : list nat;
  index_upper_bound_ : list nat
}.

Definition set_lower_bound_ (v : list double) (self : t) : t :=
  Build (m_ self) v (upper_bound_ self) (index_lower_bound_ self) (index_upper_bound_ self).
Definition set_upper_bound_ (v : list double) (self : t) : t :=
  Build (m_ self) (lower_bound_ self) v (index_lower_bound_ self) (index_upper_bound_ self).
Definition set_index_lower_bound_ (v : list nat) (self : t) : t :=
  Build (m_ self) (lower_bound_ self) (upper_bound_ self) v (index_upper_bound_ self).
Definition set_index_upper_bound_ (v : list nat) (self : t) : t :=
  Build (m_ self) (lower_bound_ self) (upper_bound_ self) (index_lower_bound_ self) v.

(** The state is the vector [*index]. *)
Definition GetFiniteIndices (bound : list double) : M (list nat) unit :=
  put [];;
  for_range (length bound) (fun i =>
    b ← at_ bound i;
    if abs b <? DBL_MAX then modify (fun index => index ++ [i]) else ret tt).

Definition ValidateBounds : M t unit :=
  self ← get;
  for_range (m_ self) (fun i =>
    l ← at_ (lower_bound_ self) i;
    u ← at_ (upper_bound_ self) i;
    ALTRO_ASSERT (l <=? u) "Lower bound isn't less than the upper bound.").

(** [explicit ControlBound(const int m)]: the member initialisers, an empty body. *)
Definition new_unbounded (m : nat) : t :=
  Build m (replicate m neg_infinity) (replicate m infinity) [] [].

(** [ControlBound(lb, ub)]: the member initialisers, then the body. *)
Definition init (lb ub : list double) : t := Build (length lb) lb ub [] [].

Definition ctor_body (lb ub : list double) : M t unit :=
  ALTRO_ASSERT (length lb =? length ub)%nat
    "Upper and lower bounds must have the same length.";;
  ALTRO_ASSERT (0 <? length lb)%nat "Cannot pass in empty bounds.";;
  self ← get;
  zoom index_upper_bound_ set_index_upper_bound_ (GetFiniteIndices (upper_bound_ self));;
  zoom index_lower_bound_ set_index_lower_bound_ (GetFiniteIndices (lower_bound_ self));;
  ValidateBounds.

(** The object a completed construction leaves, or the abort of its body. *)
Definition new (lb ub : list double) : result t :=
  match ctor_body lb ub (init lb ub) with
  | (Ok _, self) => Ok self
  | (Abort msg, _) => Abort msg
  end.

(** Both overloads (copy and move) of each setter behave alike. *)
Definition SetUpperBound (ub : list double) : M t unit :=
  self ← get;
  ALTRO_ASSERT (length ub =? m_ self)%nat
    "Inconsistent control dimension when setting upper bound.";;
  modify (set_upper_bound_ ub);;
  zoom index_upper_bound_ set_index_upper_bound_ (GetFiniteIndices ub);;
  ValidateBounds.

Definition SetLowerBound (lb : list double) : M t unit :=
  self ← get;
  ALTRO_ASSERT (length lb =? m_ self)%nat
    "Inconsistent control dimension when setting lower bound.";;
  modify (set_lower_bound_ lb);;
  zoom index_lower_bound_ set_index_lower_bound_ (GetFiniteIndices lb);;
  ValidateBounds.

Definition GetLabel (self : t) : string := "Control Bound".
Definition ControlDimension (self : t) : nat := m_ self.
Definition OutputDimension (self : t) : nat :=
  (length (index_lower_bound_ self) + length (index_upper_bound_ self))%nat.

(** The state is the output vector [c]. *)
Definition Evaluate (self : t) (x u : VectorXd) : M VectorXd unit :=
  ALTRO_ASSERT (length u =? m_ self)%nat
    "Inconsistent control dimension when evaluating control bound.";;
  for_range (length (index_lower_bound_ self)) (fun i =>
    j ← at_ (index_lower_bound_ self) i;
    l ← at_ (lower_bound_ self) j;
    uj ← at_ u j;
    set_coeff i (l - uj));;
  let offset := length (index_lower_bound_ self) in
  for_range (length (index_upper_bound_ self)) (fun i =>
    j ← at_ (index_upper_bound_ self) i;
    uj ← at_ u j;
    b ← at_ (upper_bound_ self) j;
    set_coeff (i + offset) (uj - b)).

(** The state is the output matrix [jac]; the state dimension is [x.size()]. *)
Definition Jacobian (self : t) (x u : VectorXd) : M MatrixXd unit :=
  ALTRO_ASSERT (length u =? m_ self)%nat
    "Inconsistent control dimension when evaluating control bound.";;
  Matrix_setZero;;
  let n := length x in
  for_range (length (index_lower_bound_ self)) (fun i =>
    j ← at_ (index_lower_bound_ self) i;
    set_coeff2 i (n + j) (-1));;
  let offset := length (index_lower_bound_ self) in
  for_range (length (index_upper_bound_ self)) (fun i =>
    j ← at_ (index_upper_bound_ self) i;
    set_coeff2 (i + offset) (n + j) 1).

(** A [ControlBound] object behind a [ConstraintPtr<Inequality>]. *)
Definition as_constraint (self : t) : ConstraintPtr NegOrthant :=
  Some (MkConstraint (GetLabel self) (OutputDimension self) (Evaluate self)).

End ControlBound.

(** ** The problem container

    [altro/problem/problem.hpp] is not among the sources; the tests of
    [test/problem/problem_test.cpp] and the specification describe it.  Costs
    and dynamics are objects the container only holds handles to: their types
    are parameters, and of a dynamics model only [StateDimension] is asked.

    Handles are modelled by value: a constraint registered at several knots is
    stored at each, which is all the operations below can observe. *)

Module Problem.

(** The two kinds of constraint a problem stores, [constraints::Equality] and
    [constraints::Inequality], aliases of [ZeroCone] and [NegativeOrthant]. *)
Inductive Kind : Type :=
| Equality
| Inequality.

Definition cone (kind : Kind) : ConType :=
  match kind with
  | Equality => Zero
  | Inequality => NegOrthant
  end.

Section Container.

Variables CostFunction DiscreteDynamics : Type.
Variable StateDimension : DiscreteDynamics -> nat.

(** Modelled from the spec: the data members of [Problem] (section 3): the
    number of segments, the initial state, per knot [0..N] a cost handle and
    the equality and inequality constraints, per knot [0..N-1] a dynamics
    handle.  A null handle is [None]. *)
Record t : Type := Build {
  N_ : nat;
  initial_state_ : VectorXd;
  costfuns_ : list (option CostFunction);
  models_ : list (option DiscreteDynamics);
  eq_ : list (list (Constraint Zero));
  ineq_ : list (list (Constraint NegOrthant))
}.

(** Modelled from the spec: the constructor [Problem(N)], which leaves every
    handle null, every knot without constraints and the initial state empty
    (test [Initialization]). *)
Definition new (N : nat) : t :=
  Build N [] (replicate (S N) None) (replicate N None)
    (replicate (S N) []) (replicate (S N) []).

(** Modelled from the spec: [SetDynamics(model, k)], "k ∈ [0,N-1], rejects
    k=N" (section 4.3). *)
Definition SetDynamics (model : option DiscreteDynamics) (k : nat) : M t unit :=
  self ← get;
  ALTRO_ASSERT (k <? N_ self)%nat "Invalid knot point index.";;
  put (Build (N_ self) (initial_state_ self) (costfuns_ self)
         (<[k := model]> (models_ self)) (eq_ self) (ineq_ self)).

(** Modelled from the spec: [SetCostFunction(cost, k)], "k ∈ [0,N]". *)
Definition SetCostFunction (cost : option CostFunction) (k : nat) : M t unit :=
  self ← get;
  ALTRO_ASSERT (k <=? N_ self)%nat "Invalid knot point index.";;
  put (Build (N_ self) (initial_state_ self) (<[k := cost]> (costfuns_ self))
         (models_ self) (eq_ self) (ineq_ self)).

(** Modelled from the spec: [SetInitialState(x0)], which stores the vector
    whatever its length (test [FullyDefined]). *)
Definition SetInitialState (x0 : VectorXd) : M t unit :=
  modify (fun self =>
    Build (N_ self) x0 (costfuns_ self) (models_ self) (eq_ self) (ineq_ self)).

(** Modelled from the spec: where [SetConstraint] files a constraint, by the
    cone of its handle: with the equality or with the inequality constraints
    of the knot. *)
Definition push_constraint {kind : Kind}
    (con : Constraint (cone kind)) (k : nat) (self : t) : t :=
  match kind return Constraint (cone kind) -> t with
  | Equality => fun con =>
      Build (N_ self) (initial_state_ self) (costfuns_ self) (models_ self)
        (alter (fun cons => cons ++ [con]) k (eq_ self)) (ineq_ self)
  | Inequality => fun con =>
      Build (N_ self) (initial_state_ self) (costfuns_ self) (models_ self)
        (eq_ self) (alter (fun cons => cons ++ [con]) k (ineq_ self))
  end con.

(** Modelled from the spec: [SetConstraint(con, k)], "k ∈ [0,N]; rejects
    null" (section 4.3); the death test [AddConstraintsDeath] gives the two
    assertions on the handle, the null one first. *)
Definition SetConstraint {kind : Kind}
    (con : ConstraintPtr (cone kind)) (k : nat) : M t unit :=
  match con with
  | None => abort "Must provide a valid constraint pointer."
  | Some c =>
      ALTRO_ASSERT (0 <? OutputDimension c)%nat
        "Constraint must have a length greater than zero.";;
      self ← get;
      ALTRO_ASSERT (k <=? N_ self)%nat "Invalid knot point index.";;
      modify (push_constraint c k)
  end.

(** Modelled from the spec: the counter of [NumConstraints], advanced by the
    output dimension of each constraint of a vector in turn. *)
Definition count_outputs {K : ConType} (cons : list (Constraint K)) (cnt : nat) : nat :=
  foldl (fun cnt con => (cnt + OutputDimension con)%nat) cnt cons.

(** Modelled from the spec: [NumConstraints(k)], the "sum of constraint output
    dimensions at knot k" (section 4.3): the counter run over the equality
    constraints of the knot, then over its inequality constraints. *)
Definition NumConstraints (k : nat) : M t nat :=
  self ← get;
  ALTRO_ASSERT (k <=? N_ self)%nat "Invalid knot point index.";;
  eqs ← at_ (eq_ self) k;
  ineqs ← at_ (ineq_ self) k;
  ret (count_outputs ineqs (count_outputs eqs 0%nat)).

(** Modelled from the spec: the test that the handle of knot [k] is set and
    not null. *)
Definition has_handle {A : Type} (handles : list (option A)) (k : nat) : bool :=
  match handles !! k with
  | Some (Some _) => true
  | _ => false
  end.

(** Modelled from the spec: [IsFullyDefined()], the invariant FullyDefined of
    section 3: every knot before the last has a dynamics and a cost, the last
    knot has a cost, and the initial state has the state dimension of the
    dynamics (those of knot 0, section 4.3). *)
Definition IsFullyDefined (self : t) : bool :=
  forallb (fun k => has_handle (models_ self) k && has_handle (costfuns_ self) k)
    (seq 0 (N_ self))
  && has_handle (costfuns_ self) (N_ self)
  && match models_ self !! 0%nat with
     | Some (Some model) => (length (initial_state_ self) =? StateDimension model)%nat
     | _ => false
     end.

End Container.

Arguments Build {CostFunction DiscreteDynamics} _ _ _ _ _ _.
Arguments N_ {CostFunction DiscreteDynamics} _.
Arguments initial_state_ {CostFunction DiscreteDynamics} _.
Arguments costfuns_ {CostFunction DiscreteDynamics} _.
Arguments models_ {CostFunction DiscreteDynamics} _.
Arguments eq_ {CostFunction DiscreteDynamics} _.
Arguments ineq_ {CostFunction DiscreteDynamics} _.
Arguments new {CostFunction DiscreteDynamics} _.
Arguments SetDynamics {CostFunction DiscreteDynamics} _ _.
Arguments SetCostFunction {CostFunction DiscreteDynamics} _ _.
Arguments SetInitialState {CostFunction DiscreteDynamics} _.
Arguments push_constraint {CostFunction DiscreteDynamics kind} _ _ _.
Arguments SetConstraint {CostFunction DiscreteDynamics} kind _ _.
Arguments count_outputs {K} _ _.
Arguments NumConstraints {CostFunction DiscreteDynamics} _.
Arguments IsFullyDefined {CostFunction DiscreteDynamics} _ _.

End Problem.

(** ** The triple-integrator problem ([examples/problems/triple_integrator.hpp])

    Of [TripleIntegratorProblem<dof>] the members that reach the problem
    container are kept: [N], [xf], [x0] and [ubnd].  The weights [Q], [R], [Qf]
    only enter the cost objects, which the container holds as handles, and [h]
    only the trajectory. *)

(** The conversion of an [int] to [double]. *)
Definition double_of_int (z : Z) : double :=
  if (z <? 0)%Z then - of_uint63 (Uint63.of_Z (- z)) else of_uint63 (Uint63.of_Z z).

Module TripleIntegratorProblem.

Record t : Type := Build {
  N : nat;
  xf : VectorXd;
  x0 : VectorXd;
  ubnd : list double
}.

(** Assignments to the public members. *)
Definition set_N (n : nat) (self : t) : t :=
  Build n (xf self) (x0 self) (ubnd self).
Definition set_xf (v : VectorXd) (self : t) : t :=
  Build (N self) v (x0 self) (ubnd self).
Definition set_x0 (v : VectorXd) (self : t) : t :=
  Build (N self) (xf self) v (ubnd self).
Definition set_ubnd (v : list double) (self : t) : t :=
  Build (N self) (xf self) (x0 self) v.

(** The default member initialisers, for [NStates = 3 * dof]. *)
Definition init (dof : nat) : t :=
  Build 10 (replicate (3 * dof) 0) (replicate (3 * dof) 0) (replicate dof 0).

(** The body of the constructor. *)
Definition ctor_body (dof : nat) : M t unit :=
  for_range dof (fun i =>
    zoom xf set_xf (set_coeff i (double_of_int (Z.of_nat i + 1)));;
    zoom x0 set_x0 (set_coeff i (double_of_int (- (Z.of_nat i + 1))));;
    zoom ubnd set_ubnd (set_coeff i (double_of_int (100 * (Z.of_nat i + 1))))).

Definition new (dof : nat) : result t :=
  match ctor_body dof (init dof) with
  | (Ok _, self) => Ok self
  | (Abort msg, _) => Abort msg
  end.

(** The loop of [MakeProblem] that fills the local vectors [lb] and [ub],
    the state, from [ubnd]. *)
Definition fill_bounds (dof : nat) (self : t) : M (list double * list double) unit :=
  for_range dof (fun i =>
    b ← at_ (ubnd self) i;
    modify (fun lbub => (lbub.1 ++ [- b], lbub.2 ++ [b]))).

Section MakeProblem.

Variables CostFunction DiscreteDynamics : Type.

(** [MakeProblem(add_constraints)] over the local [prob] as state.  The cost
    objects [qcost] (one per knot, all alike) and [qterm] and the discretized
    model come from classes that are not among the sources: they are the
    handles given here. *)
Definition MakeProblem_body (dof : nat) (self : t)
    (qcost qterm : CostFunction) (model : DiscreteDynamics)
    (add_constraints : bool) : M (Problem.t CostFunction DiscreteDynamics) unit :=
  for_range (N self) (fun k => Problem.SetCostFunction (Some qcost) k);;
  Problem.SetCostFunction (Some qterm) (N self);;
  for_range (N self) (fun k => Problem.SetDynamics (Some model) k);;
  Problem.SetInitialState (x0 self);;
  if add_constraints then
    match fill_bounds dof self ([], []) with
    | (Ok _, (lb, ub)) =>
        for_range (N self) (fun k =>
          match ControlBound.new lb ub with
          | Ok bnd =>
              Problem.SetConstraint Problem.Inequality (ControlBound.as_constraint bnd) k
          | Abort msg => abort msg
          end);;
        Problem.SetConstraint Problem.Equality (GoalConstraint.Create (xf self)) (N self)
    | (Abort msg, _) => abort msg
    end
  else mret tt.

Definition MakeProblem (dof : nat) (self : t)
    (qcost qterm : CostFunction) (model : DiscreteDynamics)
    (add_constraints : bool) : result (Problem.t CostFunction DiscreteDynamics) :=
  match MakeProblem_body dof self qcost qterm model add_constraints
          (Problem.new (N self)) with
  | (Ok _, prob) => Ok prob
  | (Abort msg, _) => Abort msg
  end.

End MakeProblem.

Arguments MakeProblem_body {CostFunction DiscreteDynamics} _ _ _ _ _ _.
Arguments MakeProblem {CostFunction DiscreteDynamics} _ _ _ _ _ _.

End TripleIntegratorProblem.

(** ** Vocabulary of the statements *)

(** The test [GetFiniteIndices] applies to a bound: [|b| < max]. *)
Definition is_finite (x : double) : bool := abs x <? DBL_MAX.

(** [|b| >= max]: the bounds the specification calls infinite. *)
Definition infinite_bound (b : double) : bool := DBL_MAX <=? abs b.

(** The positions, counted from [first], of the entries that satisfy [P]. *)
Fixpoint indices_where (P : double -> bool) (first : nat) (bound : list double) : list nat :=
  match bound with
  | [] => []
  | b :: bound' =>
      if P b then first :: indices_where P (S first) bound'
      else indices_where P (S first) bound'
  end.

(** The diagonal entry [NegativeOrthant::Jacobian] writes for a coordinate. *)
Definition active (xi : double) : double := if 0 <? xi then 0 else 1.

(** What [ValidateBounds] checks at coordinate [i]. *)
Definition bound_check (self : ControlBound.t) (i : nat) : result unit :=
  match ControlBound.lower_bound_ self !! i, ControlBound.upper_bound_ self !! i with
  | Some l, Some u =>
      if l <=? u then Ok tt else Abort "Lower bound isn't less than the upper bound."
  | _, _ => Abort "index out of range"
  end.

(** The object [ControlBound(lb, ub)] builds when its body runs through. *)
Definition built (lb ub : list double) : ControlBound.t :=
  ControlBound.Build (length lb) lb ub
    (indices_where is_finite 0 lb) (indices_where is_finite 0 ub).

(** The class invariant of [ControlBound]: both bound vectors have the control
    dimension, and each index vector lists the finite entries of its bound. *)
Definition consistent (self : ControlBound.t) : Prop :=
  length (ControlBound.lower_bound_ self) = ControlBound.m_ self
  /\ length (ControlBound.upper_bound_ self) = ControlBound.m_ self
  /\ ControlBound.index_lower_bound_ self
     = indices_where is_finite 0 (ControlBound.lower_bound_ self)
  /\ ControlBound.index_upper_bound_ self
     = indices_where is_finite 0 (ControlBound.upper_bound_ self).

(** [c ∈ K] for the negative orthant: [c_i <= 0] in every component. *)
Definition in_NegativeOrthant (c : VectorXd) : Prop :=
  Forall (fun y => (y <=? 0) = true) c.

(** The rows [Evaluate] writes for a finite lower and a finite upper bound. *)
Definition lower_row (self : ControlBound.t) (u : VectorXd) (j : nat) : double :=
  nth j (ControlBound.lower_bound_ self) 0 - nth j u 0.
Definition upper_row (self : ControlBound.t) (u : VectorXd) (j : nat) : double :=
  nth j u 0 - nth j (ControlBound.upper_bound_ self) 0.

(** Every knot [0..N] of a problem has its two constraint vectors. *)
Definition knots_allocated {Cost Dyn : Type} (p : Problem.t Cost Dyn) : Prop :=
  length (Problem.eq_ p) = S (Problem.N_ p)
  /\ length (Problem.ineq_ p) = S (Problem.N_ p).

(** What [ValidateBounds] accepts: [lb_i <= ub_i] in every coordinate. *)
Definition validated (self : ControlBound.t) : Prop :=
  forall i l u,
    ControlBound.lower_bound_ self !! i = Some l ->
    ControlBound.upper_bound_ self !! i = Some u ->
    (l <=? u) = true.

(** The objects a program can hold: built by one of the two constructors and
    then changed by setters that ran through. *)
Inductive reachable : ControlBound.t -> Prop :=
| reachable_unbounded (m : nat) :
    reachable (ControlBound.new_unbounded m)
| reachable_new (lb ub : list double) (self : ControlBound.t) :
    ControlBound.new lb ub = Ok self -> reachable self
| reachable_SetUpperBound (ub : list double) (self self' : ControlBound.t) :
    reachable self ->
    ControlBound.SetUpperBound ub self = (Ok tt, self') -> reachable self'
| reachable_SetLowerBound (lb : list double) (self self' : ControlBound.t) :
    reachable self ->
    ControlBound.SetLowerBound lb self = (Ok tt, self') -> reachable self'.

(** [c ∈ K] for each cone: the zero vector, any vector, a vector [<= 0]. *)
Definition in_cone (K : ConType) (c : VectorXd) : Prop :=
  match K with
  | Zero => Forall (fun y => y = 0) c
  | Identity => True
  | NegOrthant => in_NegativeOrthant c
  end.

(** The entry [ControlBound::Jacobian] leaves at row [r] and column [c], for
    a state of dimension [n]: [-1] in the row of a finite lower bound at the
    column of its control, [1] likewise for a finite upper bound, [0]
    elsewhere. *)
Definition bound_jacobian_entry (self : ControlBound.t) (n r c : nat) : double :=
  match ControlBound.index_lower_bound_ self !! r with
  | Some j => if decide (c = n + j)%nat then -1 else 0
  | None =>
      match ControlBound.index_upper_bound_ self
              !! (r - length (ControlBound.index_lower_bound_ self))%nat with
      | Some j => if decide (c = n + j)%nat then 1 else 0
      | None => 0
      end
  end.

(** Finite values of the binary64 specification, and the sign of a nonzero
    one. *)
Definition SF_is_finite (x : spec_float) : bool :=
  match x with
  | S754_zero _ | S754_finite _ _ _ => true
  | _ => false
  end.

Definition SFsign_is (s : bool) (x : spec_float) : Prop :=
  match x with
  | S754_finite s' _ _ | S754_infinity s' => s' = s
  | _ => False
  end.

(** The calls a client makes on a problem (the setters of module [Problem]
    above, modelled from the specification), and the constraints these calls
    register at a knot. *)
Section Calls.

Context {Cost Dyn : Type}.

(** A call of a client on a problem: one of the four setters with its
    arguments. *)
Inductive Call : Type :=
| CallSetDynamics (model : option Dyn) (k : nat)
| CallSetCostFunction (cost : option Cost) (k : nat)
| CallSetInitialState (x0 : VectorXd)
| CallSetConstraint (kind : Problem.Kind)
    (con : ConstraintPtr (Problem.cone kind)) (k : nat).

Definition call (c : Call) : M (Problem.t Cost Dyn) unit :=
  match c with
  | CallSetDynamics model k => Problem.SetDynamics model k
  | CallSetCostFunction cost k => Problem.SetCostFunction cost k
  | CallSetInitialState x0 => Problem.SetInitialState x0
  | CallSetConstraint kind con k => Problem.SetConstraint kind con k
  end.

(** The calls of a client one after the other. *)
Fixpoint calls (cs : list Call) : M (Problem.t Cost Dyn) unit :=
  match cs with
  | [] => mret tt
  | c :: cs' => call c;; calls cs'
  end.

(** The equality and the inequality constraints the calls [cs] register at
    knot [k], in the order of the calls. *)
Fixpoint registered_eq (cs : list Call) (k : nat) : list (Constraint Zero) :=
  match cs with
  | [] => []
  | CallSetConstraint kind con k' :: cs' =>
      match kind
        return option (Constraint (Problem.cone kind)) -> list (Constraint Zero)
      with
      | Problem.Equality => fun con =>
          match con with
          | Some c => if decide (k' = k) then [c] else []
          | None => []
          end
      | Problem.Inequality => fun _ => []
      end con ++ registered_eq cs' k
  | _ :: cs' => registered_eq cs' k
  end.

Fixpoint registered_ineq (cs : list Call) (k : nat) : list (Constraint NegOrthant) :=
  match cs with
  | [] => []
  | CallSetConstraint kind con k' :: cs' =>
      match kind
        return option (Constraint (Problem.cone kind)) -> list (Constraint NegOrthant)
      with
      | Problem.Equality => fun _ => []
      | Problem.Inequality => fun con =>
          match con with
          | Some c => if decide (k' = k) then [c] else []
          | None => []
          end
      end con ++ registered_ineq cs' k
  | _ :: cs' => registered_ineq cs' k
  end.

End Calls.

Arguments Call : clear implicits.

(** The values the constructor of [TripleIntegratorProblem] assigns at
    coordinate [i]. *)
Definition goal_coordinate (i : nat) : double := double_of_int (Z.of_nat i + 1).
Definition start_coordinate (i : nat) : double := double_of_int (- (Z.of_nat i + 1)).
Definition control_limit (i : nat) : double := double_of_int (100 * (Z.of_nat i + 1)).

(** * Properties *)

(** Unfolding the plumbing of a computation, down to its loops and writes. *)
Ltac run :=
  cbv beta iota zeta delta
    [mbind mret M_bind M_ret bind ret get put modify abort ALTRO_ASSERT zoom].

(** ** Binary64 arithmetic *)

Section SpecFloatFacts.

Local Open Scope Z_scope.

Lemma digits2_pos_bounds (m : positive) :
  2 ^ (Z.pos (digits2_pos m) - 1) <= Z.pos m < 2 ^ Z.pos (digits2_pos m).
Proof.
  induction m as [m IH | m IH |]; simpl digits2_pos.
  - rewrite Pos2Z.inj_succ, Z.pow_succ_r by lia.
    replace (Z.succ (Z.pos (digits2_pos m)) - 1) with (Z.succ (Z.pos (digits2_pos m) - 1)) by lia.
    rewrite Z.pow_succ_r by lia. lia.
  - rewrite Pos2Z.inj_succ, Z.pow_succ_r by lia.
    replace (Z.succ (Z.pos (digits2_pos m)) - 1) with (Z.succ (Z.pos (digits2_pos m) - 1)) by lia.
    rewrite Z.pow_succ_r by lia. lia.
  - simpl. lia.
Qed.

Lemma shr_1_m (mrs : shr_record) :
  0 <= shr_m mrs -> shr_m (shr_1 mrs) = shr_m mrs / 2.
Proof.
  destruct mrs as [m r s]; simpl. intros Hm.
  destruct m as [| [p | p |] | p]; cbn [shr_m]; try lia; try reflexivity.
  - apply Z.div_unique with 1; lia.
  - apply Z.div_unique with 0; lia.
Qed.

Lemma iter_pos_shr_1_m (p : positive) : forall mrs : shr_record,
  0 <= shr_m mrs ->
  shr_m (SpecFloat.iter_pos shr_1 p mrs) = shr_m mrs / 2 ^ Z.pos p.
Proof.
  induction p as [p IH | p IH |]; intros mrs Hm; simpl SpecFloat.iter_pos.
  - assert (H1 : 0 <= shr_m (shr_1 mrs)).
    { rewrite shr_1_m by done. apply Z.div_pos; lia. }
    assert (H2 : 0 <= shr_m (SpecFloat.iter_pos shr_1 p (shr_1 mrs))).
    { rewrite IH by done. apply Z.div_pos; [done | apply Z.pow_pos_nonneg; lia]. }
    rewrite IH, IH, shr_1_m by done.
    rewrite !Z.div_div by (try apply Z.pow_pos_nonneg; lia).
    f_equal. replace (Z.pos p~1) with (1 + Z.pos p + Z.pos p) by lia.
    rewrite !Z.pow_add_r by lia. lia.
  - assert (H2 : 0 <= shr_m (SpecFloat.iter_pos shr_1 p mrs)).
    { rewrite IH by done. apply Z.div_pos; [done | apply Z.pow_pos_nonneg; lia]. }
    rewrite IH, IH by done.
    rewrite !Z.div_div by (try apply Z.pow_pos_nonneg; lia).
    f_equal. replace (Z.pos p~0) with (Z.pos p + Z.pos p) by lia.
    rewrite Z.pow_add_r by lia. lia.
  - rewrite shr_1_m by done. reflexivity.
Qed.

Lemma shr_m_record_of_loc (m : Z) (l : location) : shr_m (shr_record_of_loc m l) = m.
Proof. destruct l as [| []]; reflexivity. Qed.

(** Shifting to the canonical exponent never flushes a positive mantissa to
    zero when the exponent is at least [emin]. *)
Lemma shr_fexp_pos (m e : Z) (l : location) :
  0 < m -> emin <= e ->
  0 < shr_m (fst (shr_fexp prec emax m e l)) /\ emin <= snd (shr_fexp prec emax m e l).
Proof.
  intros Hm He. unfold shr_fexp, shr.
  destruct m as [| m | m]; try lia. simpl Zdigits2.
  pose proof (digits2_pos_bounds m) as [Hlo _].
  set (d := Z.pos (digits2_pos m)) in *.
  assert (Hn : fexp prec emax (d + e) - e < d).
  { unfold fexp, SpecFloat.emin, prec, emax in *. lia. }
  destruct (fexp prec emax (d + e) - e) as [| n | n] eqn:En; simpl.
  - rewrite shr_m_record_of_loc. lia.
  - rewrite iter_pos_shr_1_m by (rewrite shr_m_record_of_loc; lia).
    rewrite shr_m_record_of_loc. split; [| lia].
    apply Z.div_str_pos. split; [apply Z.pow_pos_nonneg; lia |].
    transitivity (2 ^ (d - 1)); [| done].
    apply Z.pow_le_mono_r; lia.
  - rewrite shr_m_record_of_loc. lia.
Qed.

Lemma round_nearest_even_pos (m : Z) (l : location) :
  0 < m -> 0 < round_nearest_even m l.
Proof.
  intros Hm. destruct l as [| []]; simpl; try lia.
  destruct (Z.even m); lia.
Qed.

Lemma binary_round_aux_sign (s : bool) (m e : Z) (l : location) :
  0 < m -> emin <= e -> SFsign_is s (binary_round_aux prec emax s m e l).
Proof.
  intros Hm He. unfold binary_round_aux.
  pose proof (shr_fexp_pos m e l Hm He) as [H1 H1'].
  destruct (shr_fexp prec emax m e l) as [mrs' e']; simpl in H1, H1'.
  pose proof (shr_fexp_pos _ e' loc_Exact
                (round_nearest_even_pos _ (loc_of_shr_record mrs') H1) H1') as [H2 _].
  destruct (shr_fexp prec emax _ e' loc_Exact) as [mrs'' e'']; simpl in H2.
  destruct (shr_m mrs''); try lia.
  destruct (e'' <=? emax - prec); reflexivity.
Qed.

Lemma shl_align_emin (m : positive) (e e' : Z) :
  emin <= e -> emin <= e' -> emin <= snd (shl_align m e e').
Proof.
  intros. unfold shl_align. destruct (e' - e); simpl; lia.
Qed.

Lemma binary_round_sign (s : bool) (m : positive) (e : Z) :
  emin <= e -> SFsign_is s (binary_round prec emax s m e).
Proof.
  intros He. unfold binary_round.
  pose proof (shl_align_emin m e (fexp prec emax (Z.pos (digits2_pos m) + e)) He) as H.
  destruct (shl_align m e _) as [mz ez]; simpl in H.
  apply binary_round_aux_sign; [lia |].
  apply H. unfold fexp. lia.
Qed.

(** The sign of a normalised integer survives rounding: no underflow to zero. *)
Lemma binary_normalize_leb_zero (m e : Z) :
  emin <= e ->
  SFleb (binary_normalize prec emax m e false) (S754_zero false) = (m <=? 0).
Proof.
  intros He. destruct m as [| m | m]; simpl; [reflexivity | |].
  - pose proof (binary_round_sign false m e He) as H.
    destruct (binary_round prec emax false m e); simpl in H; try done; subst; reflexivity.
  - pose proof (binary_round_sign true m e He) as H.
    destruct (binary_round prec emax true m e); simpl in H; try done; subst; reflexivity.
Qed.


Lemma iter_xO_pow (m d : positive) :
  Z.pos (Pos.iter xO m d) = Z.pos m * 2 ^ Z.pos d.
Proof.
  apply (Pos.iter_ind positive xO m (fun d r => Z.pos r = Z.pos m * 2 ^ Z.pos d)).
  - rewrite Z.pow_1_r. lia.
  - intros p r Hr. rewrite Pos2Z.inj_succ, Z.pow_succ_r by lia. lia.
Qed.

Lemma shl_align_fst (m : positive) (e e' : Z) :
  e' <= e -> Z.pos (fst (shl_align m e e')) = Z.pos m * 2 ^ (e - e').
Proof.
  intros Hle. unfold shl_align.
  destruct (e' - e) as [| d | d] eqn:Hd; simpl; try lia.
  - replace (e - e') with 0 by lia. lia.
  - rewrite iter_xO_pow. f_equal. f_equal. lia.
Qed.

Lemma bounded_emin (m : positive) (e : Z) :
  bounded prec emax m e = true -> emin <= e.
Proof.
  unfold bounded, canonical_mantissa, fexp. intros H.
  apply andb_prop in H as [H _]. apply Z.eqb_eq in H. lia.
Qed.

(** A canonical mantissa has at most [prec] digits, and exactly [prec] above
    the smallest exponent. *)
Lemma bounded_digits (m : positive) (e : Z) :
  bounded prec emax m e = true ->
  Z.pos (digits2_pos m) <= prec /\ (emin < e -> Z.pos (digits2_pos m) = prec).
Proof.
  unfold bounded, canonical_mantissa, fexp. intros H.
  apply andb_prop in H as [H _]. apply Z.eqb_eq in H. lia.
Qed.

Lemma canonical_lt (mx my : positive) (ex ey : Z) :
  bounded prec emax mx ex = true -> bounded prec emax my ey = true ->
  ex < ey -> Z.pos mx < Z.pos my * 2 ^ (ey - ex).
Proof.
  intros Hx Hy Hlt.
  pose proof (bounded_emin _ _ Hx) as Hex.
  pose proof (bounded_digits _ _ Hx) as [Hdx _].
  pose proof (bounded_digits _ _ Hy) as [_ Hdy].
  specialize (Hdy ltac:(lia)).
  pose proof (digits2_pos_bounds mx) as [_ Hmx].
  pose proof (digits2_pos_bounds my) as [Hmy _].
  rewrite Hdy in Hmy.
  assert (H1 : 2 ^ Z.pos (digits2_pos mx) <= 2 ^ prec)
    by (apply Z.pow_le_mono_r; lia).
  assert (H2 : 2 ^ 1 <= 2 ^ (ey - ex)) by (apply Z.pow_le_mono_r; lia).
  assert (H3 : 2 ^ prec = 2 ^ (prec - 1) * 2 ^ 1).
  { rewrite <- Z.pow_add_r by (unfold prec; lia). reflexivity. }
  nia.
Qed.

(** Aligned to the smaller exponent, canonical mantissas compare the way
    [SFcompare] compares their exponents and then their mantissas. *)
Lemma canonical_compare (mx my : positive) (ex ey : Z) :
  bounded prec emax mx ex = true -> bounded prec emax my ey = true ->
  (Z.pos (fst (shl_align mx ex (Z.min ex ey))) ?= Z.pos (fst (shl_align my ey (Z.min ex ey))))
  = match ex ?= ey with
    | Lt => Lt
    | Gt => Gt
    | Eq => Pos.compare_cont Eq mx my
    end.
Proof.
  intros Hx Hy. rewrite !shl_align_fst by lia.
  destruct (Z.compare_spec ex ey) as [Heq | Hlt | Hgt].
  - subst ey. rewrite Z.min_id, Z.sub_diag, !Z.mul_1_r. reflexivity.
  - rewrite Z.min_l by lia. rewrite Z.sub_diag, Z.mul_1_r.
    apply Z.compare_lt_iff. by apply canonical_lt.
  - rewrite Z.min_r by lia. rewrite Z.sub_diag, Z.mul_1_r.
    apply Z.compare_gt_iff. by apply canonical_lt.
Qed.

Lemma SFsub_finite_leb_zero (sx sy : bool) (mx my : positive) (ex ey : Z) :
  bounded prec emax mx ex = true -> bounded prec emax my ey = true ->
  SFleb (SF64sub (S754_finite sx mx ex) (S754_finite sy my ey)) (S754_zero false)
  = SFleb (S754_finite sx mx ex) (S754_finite sy my ey).
Proof.
  intros Hx Hy. unfold SF64sub, SFsub.
  rewrite binary_normalize_leb_zero
    by (pose proof (bounded_emin _ _ Hx); pose proof (bounded_emin _ _ Hy); lia).
  pose proof (canonical_compare mx my ex ey Hx Hy) as Hc.
  set (ax := Z.pos (fst (shl_align mx ex (Z.min ex ey)))) in *.
  set (ay := Z.pos (fst (shl_align my ey (Z.min ex ey)))) in *.
  assert (0 < ax /\ 0 < ay) as [Hax Hay] by (unfold ax, ay; lia).
  assert (Hc' : match ex ?= ey with
                | Lt => Gt
                | Gt => Lt
                | Eq => CompOpp (Pos.compare_cont Eq mx my)
                end = CompOpp (ax ?= ay))
    by (rewrite Hc; destruct (ex ?= ey); reflexivity).
  unfold SFleb, SFcompare.
  destruct sx, sy; simpl cond_Zopp.
  - rewrite Hc'. destruct (Z.compare_spec ax ay); simpl;
      first [apply Z.leb_le; lia | apply Z.leb_gt; lia].
  - apply Z.leb_le. lia.
  - apply Z.leb_gt. lia.
  - rewrite <- Hc. destruct (Z.compare_spec ax ay); simpl;
      first [apply Z.leb_le; lia | apply Z.leb_gt; lia].
Qed.

(** Subtraction keeps the order: when one operand is finite, [x - y <= 0]
    exactly when [x <= y]. *)
Lemma SFsub_leb_zero (x y : spec_float) :
  valid_binary x = true -> valid_binary y = true ->
  SF_is_finite x || SF_is_finite y = true ->
  SFleb (SF64sub x y) (S754_zero false) = SFleb x y.
Proof.
  intros Hx Hy Hfin.
  destruct x as [sx | sx | | sx mx ex], y as [sy | sy | | sy my ey];
    try discriminate Hfin; try reflexivity;
    try (by destruct sx, sy); try (by destruct sx); try (by destruct sy).
  by apply SFsub_finite_leb_zero.
Qed.

Lemma SFcompare_antisym (x y : spec_float) :
  SFcompare y x = CompOpp <$> SFcompare x y.
Proof.
  destruct x as [sx | sx | | sx mx ex], y as [sy | sy | | sy my ey];
    try reflexivity; try (by destruct sx, sy); try (by destruct sx); try (by destruct sy).
  unfold SFcompare. destruct sx, sy; try reflexivity; simpl; f_equal;
    rewrite (Z.compare_antisym ex ey); destruct (ex ?= ey); simpl; try reflexivity;
    change (PosDef.Pos.compare_cont Eq my mx) with (Pos.compare my mx);
    change (PosDef.Pos.compare_cont Eq mx my) with (Pos.compare mx my);
    rewrite (Pos.compare_antisym mx my); by rewrite ?CompOpp_involutive.
Qed.

End SpecFloatFacts.

(** *** Facts on doubles *)

Lemma ltb_leb_false (x y : double) : (x <? y) = true -> (y <=? x) = false.
Proof.
  rewrite ltb_spec, leb_spec. unfold SFltb, SFleb.
  rewrite (SFcompare_antisym (Prim2SF x) (Prim2SF y)).
  by destruct (SFcompare (Prim2SF x) (Prim2SF y)) as [[] |].
Qed.

Lemma leb_ltb_false (x y : double) : (x <=? y) = true -> (y <? x) = false.
Proof.
  intros H. destruct (y <? x) eqn:E; [| done].
  apply ltb_leb_false in E. congruence.
Qed.

Lemma is_finite_spec (x : double) :
  is_finite x = true -> SF_is_finite (Prim2SF x) = true.
Proof.
  unfold is_finite. rewrite ltb_spec, abs_spec.
  replace (Prim2SF DBL_MAX) with (SFmax_float prec emax) by reflexivity.
  by destruct (Prim2SF x) as [s | s | | s m e].
Qed.

Lemma sub_leb_zero (x y : double) :
  is_finite x || is_finite y = true -> (x - y <=? 0) = (x <=? y).
Proof.
  intros H. rewrite !leb_spec, sub_spec.
  replace (Prim2SF 0) with (S754_zero false) by reflexivity.
  apply SFsub_leb_zero; try apply Prim2SF_valid.
  apply orb_true_iff in H as [H | H]; apply is_finite_spec in H; rewrite H;
    [done | apply orb_true_r].
Qed.

Lemma leb_not_nan_l (x y : double) :
  (x <=? y) = true -> Prim2SF x <> S754_nan.
Proof. rewrite leb_spec. intros H E. by rewrite E in H. Qed.

Lemma leb_not_nan_r (x y : double) :
  (x <=? y) = true -> Prim2SF y <> S754_nan.
Proof.
  rewrite leb_spec. intros H E. rewrite E in H. by destruct (Prim2SF x).
Qed.

(** Away from NaN, [|b| < max] is the negation of [|b| >= max]. *)
Lemma is_finite_negb (b : double) :
  Prim2SF b <> S754_nan -> is_finite b = negb (DBL_MAX <=? abs b).
Proof.
  intros Hb. unfold is_finite. rewrite ltb_spec, leb_spec, abs_spec.
  unfold SFltb, SFleb.
  rewrite (SFcompare_antisym (SFabs (Prim2SF b)) (Prim2SF DBL_MAX)).
  replace (Prim2SF DBL_MAX) with (SFmax_float prec emax) by reflexivity.
  destruct (Prim2SF b) as [s | s | | s m e]; try done.
  simpl SFabs. unfold SFmax_float.
  by destruct (SFcompare _ _) as [[] |] eqn:E.
Qed.

(** ** Running computations and loops *)

Lemma run_bind {St A B : Type} (c : M St A) (k : A -> M St B) (s : St) :
  (c ≫= k) s = match c s with
               | (Ok a, s') => k a s'
               | (Abort msg, s') => (Abort msg, s')
               end.
Proof. reflexivity. Qed.

Lemma run_assert_true {St : Type} (msg : string) (s : St) :
  ALTRO_ASSERT true msg s = (Ok tt, s).
Proof. reflexivity. Qed.

Lemma run_at {St A : Type} (v : list A) (i : nat) (x : A) (s : St) :
  v !! i = Some x -> at_ v i s = (Ok x, s).
Proof. intros H. unfold at_. by rewrite H. Qed.

Lemma run_set_coeff (i : nat) (x : double) (v : VectorXd) :
  (i < length v)%nat -> set_coeff i x v = (Ok tt, <[i := x]> v).
Proof. intros H. unfold set_coeff. by rewrite decide_True. Qed.

(** A loop whose body keeps an invariant runs to completion and ends in it. *)
Lemma for_loop_invariant {St : Type} (Inv : nat -> St -> Prop)
    (body : nat -> M St unit) (count : nat) : forall (first : nat) (s : St),
  (forall i s, (first <= i < first + count)%nat -> Inv i s ->
     exists s', body i s = (Ok tt, s') /\ Inv (S i) s') ->
  Inv first s ->
  exists s', for_loop body first count s = (Ok tt, s') /\ Inv (first + count)%nat s'.
Proof.
  induction count as [| count IH]; intros first s Hbody Hinv.
  - exists s. by rewrite Nat.add_0_r.
  - destruct (Hbody first s ltac:(lia) Hinv) as (s1 & Hrun & Hinv1).
    destruct (IH (S first) s1) as (s2 & Hrun2 & Hinv2); [| done |].
    { intros i s' Hi. apply Hbody. lia. }
    exists s2. split; [| by replace (first + S count)%nat with (S first + count)%nat by lia].
    simpl. rewrite run_bind, Hrun. exact Hrun2.
Qed.

(** A loop of checks that leave the state alone: it completes exactly when
    every check passes, and aborts at the first that fails. *)
Section Checks.

Context {St : Type} (chk : nat -> result unit) (body : nat -> M St unit).
Hypothesis body_chk : forall i s, body i s = (chk i, s).

Lemma for_loop_checks_ok (count : nat) : forall (first : nat) (s : St),
  (forall i, (first <= i < first + count)%nat -> chk i = Ok tt) ->
  for_loop body first count s = (Ok tt, s).
Proof using body_chk.
  induction count as [| count IH]; intros first s Hall; [done |].
  simpl. rewrite run_bind, body_chk, (Hall first) by lia.
  apply IH. intros i Hi. apply Hall. lia.
Qed.

Lemma for_loop_checks_abort (count : nat) : forall (first i : nat) (msg : string) (s : St),
  (first <= i < first + count)%nat -> chk i = Abort msg ->
  exists msg', for_loop body first count s = (Abort msg', s).
Proof using body_chk.
  induction count as [| count IH]; intros first i msg s Hi Hchk; [lia |].
  simpl. rewrite run_bind, body_chk.
  destruct (chk first) as [[] | msg0] eqn:E; [| by eexists].
  apply (IH (S first) i msg); [| done].
  destruct (decide (i = first)) as [-> | Hne]; [congruence | lia].
Qed.

Lemma for_loop_checks_inv (count : nat) : forall (first : nat) (s s' : St),
  for_loop body first count s = (Ok tt, s') ->
  s' = s /\ forall i, (first <= i < first + count)%nat -> chk i = Ok tt.
Proof using body_chk.
  induction count as [| count IH]; intros first s s' Hrun.
  - simpl in Hrun. injection Hrun as <-. split; [done | lia].
  - simpl in Hrun. rewrite run_bind, body_chk in Hrun.
    destruct (chk first) as [[] | msg0] eqn:E; [| done].
    apply IH in Hrun as [-> Hall]. split; [done |].
    intros i Hi. destruct (decide (i = first)) as [-> | Hne]; [done | apply Hall; lia].
Qed.

End Checks.

(** A loop that assigns the values [vals] to consecutive coefficients from
    [offset] on leaves the vector with exactly that slice replaced. *)
Lemma for_loop_fill (vals : list double) (offset : nat)
    (body : nat -> M VectorXd unit) (c : VectorXd) :
  (offset + length vals <= length c)%nat ->
  (forall i v s, vals !! i = Some v -> body i s = set_coeff (i + offset) v s) ->
  for_range (length vals) body c
  = (Ok tt, take offset c ++ vals ++ drop (offset + length vals) c).
Proof.
  intros Hlen Hbody. unfold for_range.
  destruct (for_loop_invariant
              (fun i s => s = take offset c ++ take i vals ++ drop (offset + i) c)
              body (length vals) 0%nat c) as (s' & Hrun & Hs').
  - intros i s [_ Hi] ->. simpl in Hi.
    destruct (lookup_lt_is_Some_2 vals i Hi) as [v Hv].
    destruct (lookup_lt_is_Some_2 c (offset + i)) as [y Hy]; [lia |].
    eexists. split.
    + rewrite (Hbody _ _ _ Hv). apply run_set_coeff.
      rewrite !length_app, length_take, length_take, length_drop. lia.
    + rewrite (take_S_r _ _ _ Hv), (drop_S _ _ _ Hy).
      rewrite insert_app_r_alt by (rewrite length_take; lia).
      rewrite insert_app_r_alt by (rewrite !length_take; lia).
      rewrite !length_take.
      replace (i + offset - offset `min` length c - i `min` length vals)%nat with 0%nat by lia.
      simpl. rewrite <- app_assoc. simpl.
      by replace (offset + S i)%nat with (S (offset + i)) by lia.
  - simpl. by rewrite Nat.add_0_r, take_drop.
  - rewrite Hrun, Hs'. simpl. by rewrite firstn_all.
Qed.

(** *** Projections *)

Lemma std_min_idempotent (x : double) : std_min 0 (std_min 0 x) = std_min 0 x.
Proof.
  unfold std_min. destruct (x <? 0) eqn:E; [by rewrite E | reflexivity].
Qed.

Lemma ZeroCone_Projection_run (x x_proj : VectorXd) :
  length x_proj = length x ->
  ZeroCone.Projection x x_proj = (Ok tt, replicate (length x) 0).
Proof.
  intros Hlen. unfold ZeroCone.Projection, Vector_setZero. run.
  rewrite Hlen, Nat.eqb_refl. run. by rewrite Hlen.
Qed.

Lemma IdentityCone_Projection_run (x x_proj : VectorXd) :
  length x_proj = length x ->
  IdentityCone.Projection x x_proj = (Ok tt, x).
Proof.
  intros Hlen. unfold IdentityCone.Projection. run.
  by rewrite Hlen, Nat.eqb_refl.
Qed.

Lemma NegativeOrthant_Projection_run (x x_proj : VectorXd) :
  length x_proj = length x ->
  NegativeOrthant.Projection x x_proj = (Ok tt, std_min 0 <$> x).
Proof.
  intros Hlen. unfold NegativeOrthant.Projection. run.
  rewrite Hlen, Nat.eqb_refl.
  pose proof (for_loop_fill (std_min 0 <$> x) 0
    (fun i => xi ← at_ x i; set_coeff i (std_min 0 xi)) x_proj) as Hfill.
  rewrite length_fmap in Hfill. revert Hfill. run. intros ->.
  - simpl. by rewrite <- Hlen, drop_all, app_nil_r.
  - rewrite Hlen. simpl. lia.
  - intros i v s Hv. rewrite list_lookup_fmap in Hv.
    destruct (x !! i) as [xi |] eqn:Hxi; [| done]. injection Hv as <-.
    rewrite (run_at _ _ _ _ Hxi). by rewrite Nat.add_0_r.
Qed.

(** C5.  For each of the cones [ZeroCone], [IdentityCone] and
    [NegativeOrthant] and every vector [v], projecting [v] (into any buffer of
    its size) succeeds, and projecting the result again gives the same
    vector: the projection is idempotent. *)
Theorem Projection_idempotent (K : ConType) (v x_proj x_proj' : VectorXd) :
  length x_proj = length v -> length x_proj' = length v ->
  exists p, Projection K v x_proj = (Ok tt, p)
            /\ Projection K p x_proj' = (Ok tt, p).
Proof.
  intros Hlen Hlen'. destruct K; simpl.
  - exists (replicate (length v) 0). split.
    + by apply ZeroCone_Projection_run.
    + rewrite <- (length_replicate (length v) 0) at 2.
      apply ZeroCone_Projection_run. by rewrite length_replicate.
  - exists v. split; by apply IdentityCone_Projection_run.
  - exists (std_min 0 <$> v). split.
    + by apply NegativeOrthant_Projection_run.
    + rewrite NegativeOrthant_Projection_run by (by rewrite length_fmap).
      f_equal. rewrite <- list_fmap_compose. apply list_fmap_ext.
      intros i x _. apply std_min_idempotent.
Qed.

(** *** Jacobians and Hessians *)

Lemma has_shape_square (n : nat) (a : MatrixXd) :
  has_shape n n a -> rows a = cols a.
Proof.
  intros [Hr Hc]. unfold rows, cols. destruct a as [| r a]; [done |].
  apply Forall_cons in Hc as [Hc _]. simpl in *. lia.
Qed.

Lemma coeff_insert (a : MatrixXd) (i j k l : nat) (r : list double) (v : double) :
  a !! i = Some r -> (j < length r)%nat ->
  coeff (<[i := <[j := v]> r]> a) k l
  = if decide (k = i /\ l = j) then Some v else coeff a k l.
Proof.
  intros Hr Hj. unfold coeff.
  destruct (decide (k = i)) as [-> | Hk].
  - rewrite list_lookup_insert_eq by (by eapply lookup_lt_Some). rewrite Hr. simpl.
    destruct (decide (l = j)) as [-> | Hl].
    + rewrite list_lookup_insert_eq by done. by rewrite decide_True.
    + rewrite list_lookup_insert_ne by done. rewrite decide_False; [done | tauto].
  - rewrite list_lookup_insert_ne by done. rewrite decide_False; [done | tauto].
Qed.

Lemma has_shape_insert (n m i j : nat) (a : MatrixXd) (r : list double) (v : double) :
  has_shape n m a -> a !! i = Some r -> has_shape n m (<[i := <[j := v]> r]> a).
Proof.
  intros [Hn Hm] Hr. split; [by rewrite length_insert |].
  apply Forall_insert; [done |]. rewrite length_insert.
  by eapply (Forall_lookup_1 _ _ _ _ Hm).
Qed.

Lemma NegativeOrthant_Jacobian_run (x : VectorXd) (jac : MatrixXd) :
  has_shape (length x) (length x) jac ->
  exists jac',
    NegativeOrthant.Jacobian x jac = (Ok tt, jac')
    /\ has_shape (length x) (length x) jac'
    /\ forall k l, coeff jac' k l
                   = if decide (k = l) then active <$> x !! k else coeff jac k l.
Proof.
  intros Hshape. unfold NegativeOrthant.Jacobian, for_range. run.
  rewrite (has_shape_square _ _ Hshape), Nat.eqb_refl.
  destruct (for_loop_invariant
    (fun i a => has_shape (length x) (length x) a
                /\ forall k l, coeff a k l
                     = if decide (k = l /\ k < i)%nat then active <$> x !! k
                       else coeff jac k l)
    (fun i => xi ← at_ x i; set_coeff2 i i (if 0 <? xi then 0 else 1))
    (length x) 0%nat jac) as (jac' & Hrun & Hshape' & Hcoeff).
  - intros i a [_ Hi] [Ha Hco]. simpl in Hi.
    destruct (lookup_lt_is_Some_2 x i Hi) as [xi Hxi].
    destruct (lookup_lt_is_Some_2 a i) as [r Hr]; [destruct Ha; lia |].
    assert (Hlr : length r = length x)
      by (destruct Ha as [_ Ha]; by eapply (Forall_lookup_1 _ _ _ _ Ha)).
    exists (<[i := <[i := active xi]> r]> a). split; [| split].
    + run. rewrite (run_at _ _ _ _ Hxi). unfold set_coeff2.
      rewrite Hr, decide_True by lia. reflexivity.
    + by apply has_shape_insert.
    + intros k l. rewrite coeff_insert by (done || lia). rewrite Hco.
      destruct (decide (k = i /\ l = i)) as [[-> ->] | Hne].
      * rewrite decide_True by lia. by rewrite Hxi.
      * destruct (decide (k = l /\ k < i)%nat), (decide (k = l /\ k < S i)%nat);
          try done; lia.
  - split; [done |]. intros k l. rewrite decide_False; [done | lia].
  - exists jac'. revert Hrun. run. intros ->. split; [done |]. split; [done |].
    intros k l. rewrite Hcoeff. simpl.
    destruct (decide (k = l)) as [-> | Hne].
    + destruct (decide (l < length x)%nat) as [Hl | Hl].
      * rewrite decide_True; [done | by split].
      * rewrite decide_False by lia.
        rewrite (lookup_ge_None_2 x l) by lia. simpl.
        unfold coeff. destruct Hshape as [Hn _].
        rewrite (lookup_ge_None_2 jac l) by lia. reflexivity.
    + rewrite decide_False; [done | tauto].
Qed.

Lemma Matrix_setZero_coeff (a : MatrixXd) (i j : nat) (y : double) :
  coeff ((fun r : list double => replicate (length r) 0) <$> a) i j = Some y -> y = 0.
Proof.
  unfold coeff. rewrite list_lookup_fmap.
  destruct (a !! i) as [r |]; simpl; [| done].
  intros H. by apply lookup_replicate in H as [-> _].
Qed.

Lemma NegativeOrthant_Hessian_run (x b : VectorXd) (hess : MatrixXd) :
  rows hess = cols hess -> length x = length b ->
  NegativeOrthant.Hessian x b hess
  = (Ok tt, (fun r : list double => replicate (length r) 0) <$> hess).
Proof.
  intros Hsq Hlen. unfold NegativeOrthant.Hessian, Matrix_setZero. run.
  by rewrite Hsq, Hlen, !Nat.eqb_refl.
Qed.

(** What holds of [NegativeOrthant]: the projection is the element-wise
    [min(0, v_i)]. *)
Lemma NegativeOrthant_Projection_coeff (v x_proj : VectorXd) :
  length x_proj = length v ->
  exists p, NegativeOrthant.Projection v x_proj = (Ok tt, p)
            /\ length p = length v
            /\ forall i vi, v !! i = Some vi -> p !! i = Some (std_min 0 vi).
Proof.
  intros Hlen. exists (std_min 0 <$> v).
  split; [by apply NegativeOrthant_Projection_run |].
  split; [by rewrite length_fmap |].
  intros i vi Hvi. by rewrite list_lookup_fmap, Hvi.
Qed.

(** The Jacobian writes the diagonal the claim describes, and nothing else:
    every off-diagonal entry keeps the value the buffer held on entry. *)
Lemma NegativeOrthant_Jacobian_diagonal (v : VectorXd) (jac : MatrixXd) :
  has_shape (length v) (length v) jac ->
  exists jac',
    NegativeOrthant.Jacobian v jac = (Ok tt, jac')
    /\ (forall i vi, v !! i = Some vi ->
          ((vi <=? 0) = true -> coeff jac' i i = Some 1)
          /\ ((0 <? vi) = true -> coeff jac' i i = Some 0))
    /\ (forall k l, k <> l -> coeff jac' k l = coeff jac k l).
Proof.
  intros Hshape.
  destruct (NegativeOrthant_Jacobian_run v jac Hshape) as (jac' & Hrun & _ & Hcoeff).
  exists jac'. split; [done |]. split.
  - intros i vi Hvi. rewrite Hcoeff, decide_True, Hvi by done. unfold active. simpl.
    split; intros H.
    + by rewrite (leb_ltb_false _ _ H).
    + by rewrite H.
  - intros k l Hne. by rewrite Hcoeff, decide_False.
Qed.

(** On a buffer whose off-diagonal entries are zero on entry, the result is
    the diagonal matrix of the claim. *)
Lemma NegativeOrthant_Jacobian_zeroed (v : VectorXd) (jac : MatrixXd) :
  has_shape (length v) (length v) jac ->
  (forall k l y, k <> l -> coeff jac k l = Some y -> y = 0) ->
  exists jac',
    NegativeOrthant.Jacobian v jac = (Ok tt, jac')
    /\ forall k l y, k <> l -> coeff jac' k l = Some y -> y = 0.
Proof.
  intros Hshape Hzero.
  destruct (NegativeOrthant_Jacobian_diagonal v jac Hshape) as (jac' & Hrun & _ & Hoff).
  exists jac'. split; [done |].
  intros k l y Hne. rewrite (Hoff k l Hne). by apply Hzero.
Qed.

(** The Hessian is the zero matrix. *)
Lemma NegativeOrthant_Hessian_zero (v b : VectorXd) (hess : MatrixXd) :
  rows hess = cols hess -> length v = length b ->
  exists hess',
    NegativeOrthant.Hessian v b hess = (Ok tt, hess')
    /\ forall i j y, coeff hess' i j = Some y -> y = 0.
Proof.
  intros Hsq Hlen. eexists. split; [by apply NegativeOrthant_Hessian_run |].
  apply Matrix_setZero_coeff.
Qed.

(** C1 (the code departs from the claim).  On [v = (-1, 1)] and a 2 x 2
    buffer holding 5 everywhere, [NegativeOrthant::Jacobian] writes the two
    diagonal entries and leaves both off-diagonal entries at 5, where the
    claim has 0; on the same input [ZeroCone::Jacobian] and
    [IdentityCone::Jacobian] overwrite the whole buffer. *)
Theorem NegativeOrthant_Jacobian_stale_off_diagonal :
  NegativeOrthant.Jacobian [-1; 1] [[5; 5]; [5; 5]] = (Ok tt, [[1; 5]; [5; 0]])
  /\ coeff (NegativeOrthant.Jacobian [-1; 1] [[5; 5]; [5; 5]]).2 0 1 = Some 5
  /\ ZeroCone.Jacobian [-1; 1] [[5; 5]; [5; 5]] = (Ok tt, [[0; 0]; [0; 0]])
  /\ IdentityCone.Jacobian [-1; 1] [[5; 5]; [5; 5]] = (Ok tt, [[1; 0]; [0; 1]]).
Proof. repeat split; reflexivity. Qed.

(** C6.  The dual of [ZeroCone] is [IdentityCone], the dual of
    [IdentityCone] is [ZeroCone], [NegativeOrthant] is its own dual, and the
    dual of the dual of each of the three cones is the cone itself. *)
Theorem DualCone_table :
  DualCone Zero = Identity
  /\ DualCone Identity = Zero
  /\ DualCone NegOrthant = NegOrthant
  /\ forall K, DualCone (DualCone K) = K.
Proof. repeat split. by intros []. Qed.

(** ** Control bounds *)

(** *** Index vectors *)

Lemma indices_where_app (P : double -> bool) (l1 l2 : list double) : forall first,
  indices_where P first (l1 ++ l2)
  = indices_where P first l1 ++ indices_where P (first + length l1) l2.
Proof.
  induction l1 as [| b l1 IH]; intros first; simpl.
  - by rewrite Nat.add_0_r.
  - rewrite IH. replace (S first + length l1)%nat with (first + S (length l1))%nat by lia.
    by destruct (P b).
Qed.

Lemma indices_where_ext (P Q : double -> bool) (l : list double) : forall first,
  Forall (fun b => P b = Q b) l -> indices_where P first l = indices_where Q first l.
Proof.
  induction l as [| b l IH]; intros first Hl; [done |].
  apply Forall_cons in Hl as [Hb Hl]. simpl. rewrite Hb, (IH _ Hl). done.
Qed.

Lemma length_indices_where (P : double -> bool) (l : list double) : forall first,
  length (indices_where P first l) = length (List.filter P l).
Proof.
  induction l as [| b l IH]; intros first; [done |].
  simpl. destruct (P b); simpl; by rewrite IH.
Qed.

Lemma elem_of_indices_where (P : double -> bool) (l : list double) : forall first j,
  j ∈ indices_where P first l
  <-> exists b, (first <= j)%nat /\ l !! (j - first)%nat = Some b /\ P b = true.
Proof.
  induction l as [| b l IH]; intros first j; simpl.
  - split; [by intros ?%elem_of_nil | by intros (? & _ & ? & _)].
  - assert (Hrec : j ∈ indices_where P (S first) l
                   <-> exists b', (S first <= j)%nat /\ (b :: l) !! (j - first)%nat = Some b'
                                 /\ P b' = true).
    { rewrite IH. split; intros (b' & Hj & Hb' & HP); exists b'; (split; [lia |]); split;
        try done.
      - by replace (j - first)%nat with (S (j - S first)) by lia.
      - by replace (j - first)%nat with (S (j - S first)) in Hb' by lia. }
    destruct (P b) eqn:HPb.
    + rewrite elem_of_cons, Hrec. split.
      * intros [-> | (b' & Hj & Hb' & HP)].
        -- exists b. rewrite Nat.sub_diag. by split; [lia |].
        -- exists b'. by split; [lia |].
      * intros (b' & Hj & Hb' & HP).
        destruct (decide (j = first)) as [-> | Hne]; [by left |].
        right. exists b'. by split; [lia |].
    + rewrite Hrec. split.
      * intros (b' & Hj & Hb' & HP). exists b'. by split; [lia |].
      * intros (b' & Hj & Hb' & HP).
        destruct (decide (j = first)) as [-> | Hne].
        -- rewrite Nat.sub_diag in Hb'. simpl in Hb'. congruence.
        -- exists b'. by split; [lia |].
Qed.

Lemma NoDup_indices_where (P : double -> bool) (l : list double) : forall first,
  NoDup (indices_where P first l).
Proof.
  induction l as [| b l IH]; intros first; simpl; [constructor |].
  destruct (P b); [| apply IH].
  constructor; [| apply IH].
  rewrite elem_of_indices_where. intros (? & Hle & _). lia.
Qed.

Lemma GetFiniteIndices_run (bound : list double) (index : list nat) :
  ControlBound.GetFiniteIndices bound index = (Ok tt, indices_where is_finite 0 bound).
Proof.
  unfold ControlBound.GetFiniteIndices, for_range. run.
  destruct (for_loop_invariant
    (fun i (s : list nat) => s = indices_where is_finite 0 (take i bound))
    (fun i => b ← at_ bound i;
              if abs b <? DBL_MAX then modify (fun index => index ++ [i]) else mret tt)
    (length bound) 0%nat []) as (s' & Hrun & Hs').
  - intros i s [_ Hi] ->. simpl in Hi.
    destruct (lookup_lt_is_Some_2 bound i Hi) as [b Hb].
    exists (indices_where is_finite 0 (take i bound)
              ++ if abs b <? DBL_MAX then [i] else []).
    split.
    + run. rewrite (run_at _ _ _ _ Hb).
      destruct (abs b <? DBL_MAX); by rewrite ?app_nil_r.
    + rewrite (take_S_r _ _ _ Hb), indices_where_app. simpl.
      rewrite length_take, Nat.min_l by lia. reflexivity.
  - by rewrite take_0.
  - revert Hrun. run. intros ->. simpl in Hs'. by rewrite Hs', firstn_all.
Qed.

(** *** Validation *)

Lemma ValidateBounds_body (self : ControlBound.t) (i : nat) (s : ControlBound.t) :
  (l ← at_ (ControlBound.lower_bound_ self) i;
   u ← at_ (ControlBound.upper_bound_ self) i;
   ALTRO_ASSERT (l <=? u) "Lower bound isn't less than the upper bound.") s
  = (bound_check self i, s).
Proof.
  unfold bound_check, at_. run.
  destruct (ControlBound.lower_bound_ self !! i) as [l |]; [| done].
  destruct (ControlBound.upper_bound_ self !! i) as [u |]; [| done].
  by destruct (l <=? u).
Qed.

Lemma ValidateBounds_ok (self : ControlBound.t) :
  (forall i, (i < ControlBound.m_ self)%nat -> bound_check self i = Ok tt) ->
  ControlBound.ValidateBounds self = (Ok tt, self).
Proof.
  intros Hall. unfold ControlBound.ValidateBounds, for_range.
  rewrite run_bind. simpl.
  apply (for_loop_checks_ok (bound_check self) _ (ValidateBounds_body self)).
  intros i Hi. apply Hall. lia.
Qed.

Lemma ValidateBounds_abort (self : ControlBound.t) (i : nat) (msg : string) :
  (i < ControlBound.m_ self)%nat -> bound_check self i = Abort msg ->
  exists msg', ControlBound.ValidateBounds self = (Abort msg', self).
Proof.
  intros Hi Hchk. unfold ControlBound.ValidateBounds, for_range.
  rewrite run_bind. simpl.
  apply (for_loop_checks_abort (bound_check self) _ (ValidateBounds_body self)
           _ 0%nat i msg); [lia | done].
Qed.

Lemma ValidateBounds_inv (self self' : ControlBound.t) :
  ControlBound.ValidateBounds self = (Ok tt, self') ->
  self' = self /\ forall i, (i < ControlBound.m_ self)%nat -> bound_check self i = Ok tt.
Proof.
  unfold ControlBound.ValidateBounds, for_range. rewrite run_bind. simpl.
  intros Hrun.
  apply (for_loop_checks_inv (bound_check self) _ (ValidateBounds_body self)) in Hrun
    as [-> Hall].
  split; [done |]. intros i Hi. apply Hall. lia.
Qed.

(** *** Construction and the setters *)

Lemma ctor_body_run (lb ub : list double) :
  length lb = length ub -> (0 < length lb)%nat ->
  ControlBound.ctor_body lb ub (ControlBound.init lb ub)
  = ControlBound.ValidateBounds (built lb ub).
Proof.
  intros Hlen Hpos. unfold ControlBound.ctor_body, ControlBound.init. run.
  rewrite Hlen, Nat.eqb_refl.
  destruct (0 <? length ub)%nat eqn:E; [| apply Nat.ltb_ge in E; lia].
  cbn [ControlBound.upper_bound_ ControlBound.lower_bound_
       ControlBound.index_upper_bound_ ControlBound.index_lower_bound_].
  rewrite GetFiniteIndices_run.
  cbn [ControlBound.set_index_upper_bound_ ControlBound.upper_bound_
       ControlBound.lower_bound_ ControlBound.m_
       ControlBound.index_upper_bound_ ControlBound.index_lower_bound_].
  rewrite GetFiniteIndices_run.
  unfold built. rewrite Hlen.
  by destruct (ControlBound.ValidateBounds _) as [[] ?].
Qed.

Lemma ControlBound_new_inv (lb ub : list double) (self : ControlBound.t) :
  ControlBound.new lb ub = Ok self ->
  self = built lb ub /\ length lb = length ub /\ (0 < length lb)%nat
  /\ forall i l u, lb !! i = Some l -> ub !! i = Some u -> (l <=? u) = true.
Proof.
  unfold ControlBound.new. intros Hnew.
  destruct (decide (length lb = length ub)) as [Hlen | Hlen]; last first.
  { revert Hnew. unfold ControlBound.ctor_body. run.
    apply Nat.eqb_neq in Hlen. by rewrite Hlen. }
  destruct (decide (0 < length lb)%nat) as [Hpos | Hpos]; last first.
  { revert Hnew. unfold ControlBound.ctor_body. run.
    rewrite Hlen, Nat.eqb_refl.
    destruct (0 <? length ub)%nat eqn:E; [apply Nat.ltb_lt in E; lia | done]. }
  rewrite ctor_body_run in Hnew by done.
  destruct (ControlBound.ValidateBounds (built lb ub)) as [[[] | msg] self'] eqn:Hval;
    [| done].
  injection Hnew as ->.
  apply ValidateBounds_inv in Hval as [-> Hall].
  repeat split; try done.
  intros i l u Hl Hu.
  specialize (Hall i ltac:(simpl; by eapply lookup_lt_Some)).
  unfold bound_check in Hall. simpl in Hall. rewrite Hl, Hu in Hall.
  by destruct (l <=? u).
Qed.

Lemma ControlBound_new_ok (lb ub : list double) :
  length lb = length ub -> (0 < length lb)%nat ->
  (forall i l u, lb !! i = Some l -> ub !! i = Some u -> (l <=? u) = true) ->
  ControlBound.new lb ub = Ok (built lb ub).
Proof.
  intros Hlen Hpos Hall. unfold ControlBound.new.
  rewrite ctor_body_run, ValidateBounds_ok; [done | | done | done].
  intros i Hi. simpl in Hi. unfold bound_check. simpl.
  destruct (lookup_lt_is_Some_2 lb i Hi) as [l Hl].
  destruct (lookup_lt_is_Some_2 ub i ltac:(lia)) as [u Hu].
  by rewrite Hl, Hu, (Hall i l u).
Qed.

(** C2.  A [ControlBound] constructed from [(lb, ub)] lists in its two index
    vectors exactly the positions of the bounds that are not infinite, where
    a bound [b] is infinite when [|b| >= max]; so [OutputDimension] is the
    number of finite lower bounds plus the number of finite upper bounds: a
    bound with [|b| >= max] gives no row, every other bound gives one. *)
Theorem ControlBound_OutputDimension (lb ub : list double) (self : ControlBound.t) :
  ControlBound.new lb ub = Ok self ->
  ControlBound.index_lower_bound_ self
    = indices_where (fun b => negb (infinite_bound b)) 0 lb
  /\ ControlBound.index_upper_bound_ self
    = indices_where (fun b => negb (infinite_bound b)) 0 ub
  /\ ControlBound.OutputDimension self
    = (length (List.filter (fun b => negb (infinite_bound b)) lb)
       + length (List.filter (fun b => negb (infinite_bound b)) ub))%nat.
Proof.
  intros (-> & Hlen & _ & Hle)%ControlBound_new_inv.
  assert (Hlb : Forall (fun b => is_finite b = negb (infinite_bound b)) lb).
  { apply Forall_lookup. intros i l Hl.
    destruct (lookup_lt_is_Some_2 ub i) as [u Hu];
      [rewrite <- Hlen; by eapply lookup_lt_Some |].
    apply is_finite_negb. eapply leb_not_nan_l, (Hle i l u); done. }
  assert (Hub : Forall (fun b => is_finite b = negb (infinite_bound b)) ub).
  { apply Forall_lookup. intros i u Hu.
    destruct (lookup_lt_is_Some_2 lb i) as [l Hl];
      [rewrite Hlen; by eapply lookup_lt_Some |].
    apply is_finite_negb. eapply leb_not_nan_r, (Hle i l u); done. }
  unfold ControlBound.OutputDimension, built. simpl.
  rewrite (indices_where_ext _ _ _ 0%nat Hlb), (indices_where_ext _ _ _ 0%nat Hub).
  by rewrite !length_indices_where.
Qed.

(** C7.  When some component has its lower bound strictly above its upper
    bound ([lb_i > ub_i]), the constructor [ControlBound(lb, ub)] aborts, and
    so does [SetLowerBound(lb)] on any object whose upper bounds are [ub] and
    [SetUpperBound(ub)] on any object whose lower bounds are [lb]: the fault
    is raised by the call that sets the bounds. *)
Theorem ControlBound_rejects_crossed_bounds
    (lb ub : list double) (i : nat) (l u : double) :
  lb !! i = Some l -> ub !! i = Some u -> (u <? l) = true ->
  (exists msg, ControlBound.new lb ub = Abort msg)
  /\ (forall m old il iu, exists msg self',
        ControlBound.SetLowerBound lb (ControlBound.Build m old ub il iu)
        = (Abort msg, self'))
  /\ (forall m old il iu, exists msg self',
        ControlBound.SetUpperBound ub (ControlBound.Build m lb old il iu)
        = (Abort msg, self')).
Proof.
  intros Hl Hu Hlt. apply ltb_leb_false in Hlt.
  split; [| split].
  - destruct (ControlBound.new lb ub) as [self | msg] eqn:Hnew; [| by eexists].
    apply ControlBound_new_inv in Hnew as (_ & _ & _ & Hall).
    rewrite (Hall i l u Hl Hu) in Hlt. done.
  - intros m old il iu. unfold ControlBound.SetLowerBound. run.
    cbn [ControlBound.m_].
    destruct (length lb =? m)%nat eqn:Hm; [| by eexists _, _].
    apply Nat.eqb_eq in Hm.
    cbn [ControlBound.set_lower_bound_ ControlBound.upper_bound_
         ControlBound.lower_bound_ ControlBound.m_
         ControlBound.index_upper_bound_ ControlBound.index_lower_bound_].
    rewrite GetFiniteIndices_run.
    cbv beta iota zeta delta
      [ControlBound.set_index_lower_bound_ ControlBound.set_lower_bound_
       ControlBound.upper_bound_ ControlBound.lower_bound_ ControlBound.m_
       ControlBound.index_upper_bound_ ControlBound.index_lower_bound_].
    edestruct (ValidateBounds_abort
                 (ControlBound.Build m lb ub (indices_where is_finite 0 lb) iu) i)
      as [msg Hval].
    + simpl. rewrite <- Hm. by eapply lookup_lt_Some.
    + unfold bound_check. simpl. by rewrite Hl, Hu, Hlt.
    + by eexists _, _.
  - intros m old il iu. unfold ControlBound.SetUpperBound. run.
    cbn [ControlBound.m_].
    destruct (length ub =? m)%nat eqn:Hm; [| by eexists _, _].
    apply Nat.eqb_eq in Hm.
    cbn [ControlBound.set_upper_bound_ ControlBound.upper_bound_
         ControlBound.lower_bound_ ControlBound.m_
         ControlBound.index_upper_bound_ ControlBound.index_lower_bound_].
    rewrite GetFiniteIndices_run.
    cbv beta iota zeta delta
      [ControlBound.set_index_upper_bound_ ControlBound.set_upper_bound_
       ControlBound.upper_bound_ ControlBound.lower_bound_ ControlBound.m_
       ControlBound.index_upper_bound_ ControlBound.index_lower_bound_].
    edestruct (ValidateBounds_abort
                 (ControlBound.Build m lb ub il (indices_where is_finite 0 ub)) i)
      as [msg Hval].
    + simpl. rewrite <- Hm. by eapply lookup_lt_Some.
    + unfold bound_check. simpl. by rewrite Hl, Hu, Hlt.
    + by eexists _, _.
Qed.

Lemma nth_lookup_Some (l : list double) (j : nat) (x : double) :
  l !! j = Some x -> nth j l 0 = x.
Proof. intros H. by rewrite (nth_lookup_Some _ _ _ _ H). Qed.

Lemma indices_where_lt (P : double -> bool) (l : list double) (j : nat) :
  j ∈ indices_where P 0 l -> exists b, l !! j = Some b /\ P b = true.
Proof.
  rewrite elem_of_indices_where. intros (b & _ & Hb & HP).
  rewrite Nat.sub_0_r in Hb. by exists b.
Qed.

Lemma built_consistent (lb ub : list double) :
  length lb = length ub -> consistent (built lb ub).
Proof. intros Hlen. by repeat split. Qed.

Lemma new_unbounded_consistent (m : nat) :
  consistent (ControlBound.new_unbounded m).
Proof.
  unfold consistent, ControlBound.new_unbounded. simpl.
  rewrite !length_replicate. repeat split.
  - generalize 0%nat. induction m as [| m IH]; intros first; [done | apply IH].
  - generalize 0%nat. induction m as [| m IH]; intros first; [done | apply IH].
Qed.

(** The invariant holds of every object: the constructors establish it and
    the setters keep it. *)
Lemma ControlBound_new_consistent (lb ub : list double) (self : ControlBound.t) :
  ControlBound.new lb ub = Ok self -> consistent self.
Proof.
  intros (-> & Hlen & _)%ControlBound_new_inv. by apply built_consistent.
Qed.

Lemma SetUpperBound_consistent (ub : list double) (self self' : ControlBound.t) :
  consistent self ->
  ControlBound.SetUpperBound ub self = (Ok tt, self') -> consistent self'.
Proof.
  intros (Hlb & Hub & HL & HU). unfold ControlBound.SetUpperBound. run.
  destruct (length ub =? ControlBound.m_ self)%nat eqn:Hm; [| done].
  apply Nat.eqb_eq in Hm. rewrite GetFiniteIndices_run.
  intros [-> _]%ValidateBounds_inv. by repeat split.
Qed.

Lemma SetLowerBound_consistent (lb : list double) (self self' : ControlBound.t) :
  consistent self ->
  ControlBound.SetLowerBound lb self = (Ok tt, self') -> consistent self'.
Proof.
  intros (Hlb & Hub & HL & HU). unfold ControlBound.SetLowerBound. run.
  destruct (length lb =? ControlBound.m_ self)%nat eqn:Hm; [| done].
  apply Nat.eqb_eq in Hm. rewrite GetFiniteIndices_run.
  intros [-> _]%ValidateBounds_inv. by repeat split.
Qed.

Lemma Evaluate_run (self : ControlBound.t) (x u c : VectorXd) :
  consistent self ->
  length u = ControlBound.m_ self ->
  length c = ControlBound.OutputDimension self ->
  ControlBound.Evaluate self x u c
  = (Ok tt, (lower_row self u <$> ControlBound.index_lower_bound_ self)
            ++ (upper_row self u <$> ControlBound.index_upper_bound_ self)).
Proof.
  intros (Hlb & Hub & HL & HU) Hu Hc.
  unfold ControlBound.OutputDimension in Hc.
  unfold ControlBound.Evaluate.
  rewrite run_bind, Hu, Nat.eqb_refl, run_assert_true, run_bind.
  set (L := ControlBound.index_lower_bound_ self) in *.
  set (U := ControlBound.index_upper_bound_ self) in *.
  rewrite <- (length_fmap (lower_row self u) L) at 1.
  rewrite (for_loop_fill (lower_row self u <$> L) 0).
  - rewrite <- (length_fmap (upper_row self u) U) at 1.
    rewrite (for_loop_fill (upper_row self u <$> U) (length L)).
    + f_equal. simpl. rewrite !length_fmap.
      rewrite take_app_length' by (symmetry; apply length_fmap).
      rewrite (drop_ge (_ ++ _))
        by (rewrite length_app, length_fmap, length_drop; lia).
      by rewrite app_nil_r.
    + simpl. rewrite !length_app, !length_fmap, length_drop. lia.
    + intros i v s Hv. rewrite list_lookup_fmap in Hv.
      destruct (U !! i) as [j |] eqn:Hj; [| done]. injection Hv as <-.
      destruct (indices_where_lt is_finite (ControlBound.upper_bound_ self) j)
        as (b & Hb & _); [rewrite <- HU; by eapply list_elem_of_lookup_2 |].
      destruct (lookup_lt_is_Some_2 u j) as [uj Huj];
        [rewrite Hu, <- Hub; by eapply lookup_lt_Some |].
      rewrite run_bind, (run_at _ _ _ _ Hj), run_bind, (run_at _ _ _ _ Huj),
        run_bind, (run_at _ _ _ _ Hb).
      unfold upper_row. by rewrite (nth_lookup_Some _ _ _ Huj), (nth_lookup_Some _ _ _ Hb).
  - simpl. rewrite length_fmap. lia.
  - intros i v s Hv. rewrite list_lookup_fmap in Hv.
    destruct (L !! i) as [j |] eqn:Hj; [| done]. injection Hv as <-.
    destruct (indices_where_lt is_finite (ControlBound.lower_bound_ self) j)
      as (l & Hl & _); [rewrite <- HL; by eapply list_elem_of_lookup_2 |].
    destruct (lookup_lt_is_Some_2 u j) as [uj Huj];
      [rewrite Hu, <- Hlb; by eapply lookup_lt_Some |].
    rewrite run_bind, (run_at _ _ _ _ Hj), run_bind, (run_at _ _ _ _ Hl),
      run_bind, (run_at _ _ _ _ Huj).
    unfold lower_row. rewrite (nth_lookup_Some _ _ _ Huj), (nth_lookup_Some _ _ _ Hl).
    by rewrite Nat.add_0_r.
Qed.

(** C9.  For a [ControlBound] whose index vectors list its finite bounds, a
    control [u] of the control dimension and an output [c] of the output
    dimension, [Evaluate] succeeds and leaves in [c] the rows [lb_j - u_j] of
    the finite lower bounds followed by the rows [u_j - ub_j] of the finite
    upper bounds; and every component of that output is [<= 0] exactly when
    [lb_j <= u_j] for every finite lower bound and [u_j <= ub_j] for every
    finite upper bound. *)
Theorem ControlBound_Evaluate_feasibility (self : ControlBound.t) (x u c : VectorXd) :
  consistent self ->
  length u = ControlBound.m_ self ->
  length c = ControlBound.OutputDimension self ->
  exists c',
    ControlBound.Evaluate self x u c = (Ok tt, c')
    /\ c' = (lower_row self u <$> ControlBound.index_lower_bound_ self)
            ++ (upper_row self u <$> ControlBound.index_upper_bound_ self)
    /\ (in_NegativeOrthant c' <->
        forall j l b uj,
          ControlBound.lower_bound_ self !! j = Some l ->
          ControlBound.upper_bound_ self !! j = Some b ->
          u !! j = Some uj ->
          (is_finite l = true -> (l <=? uj) = true)
          /\ (is_finite b = true -> (uj <=? b) = true)).
Proof.
  intros Hcons Hu Hc. eexists. split; [by apply Evaluate_run |]. split; [done |].
  destruct Hcons as (Hlb & Hub & HL & HU).
  unfold in_NegativeOrthant. rewrite Forall_app, !Forall_fmap, !Forall_forall.
  rewrite HL, HU. split.
  - intros [Hlo Hup] j l b uj Hl Hb Huj. split; intros Hfin.
    + specialize (Hlo j). simpl in Hlo. unfold lower_row in Hlo.
      rewrite (nth_lookup_Some _ _ _ Hl), (nth_lookup_Some _ _ _ Huj) in Hlo.
      rewrite <- (sub_leb_zero l uj) by (by rewrite Hfin).
      apply Hlo, elem_of_indices_where. exists l. rewrite Nat.sub_0_r. by split; [lia |].
    + specialize (Hup j). simpl in Hup. unfold upper_row in Hup.
      rewrite (nth_lookup_Some _ _ _ Hb), (nth_lookup_Some _ _ _ Huj) in Hup.
      rewrite <- (sub_leb_zero uj b) by (rewrite Hfin; apply orb_true_r).
      apply Hup, elem_of_indices_where. exists b. rewrite Nat.sub_0_r. by split; [lia |].
  - intros Hall. split; intros j Hj; simpl.
    + apply indices_where_lt in Hj as (l & Hl & Hfin).
      destruct (lookup_lt_is_Some_2 (ControlBound.upper_bound_ self) j) as [b Hb];
        [rewrite Hub, <- Hlb; by eapply lookup_lt_Some |].
      destruct (lookup_lt_is_Some_2 u j) as [uj Huj];
        [rewrite Hu, <- Hlb; by eapply lookup_lt_Some |].
      unfold lower_row. rewrite (nth_lookup_Some _ _ _ Hl), (nth_lookup_Some _ _ _ Huj).
      rewrite sub_leb_zero by (by rewrite Hfin).
      by apply (Hall j l b uj).
    + apply indices_where_lt in Hj as (b & Hb & Hfin).
      destruct (lookup_lt_is_Some_2 (ControlBound.lower_bound_ self) j) as [l Hl];
        [rewrite Hlb, <- Hub; by eapply lookup_lt_Some |].
      destruct (lookup_lt_is_Some_2 u j) as [uj Huj];
        [rewrite Hu, <- Hub; by eapply lookup_lt_Some |].
      unfold upper_row. rewrite (nth_lookup_Some _ _ _ Hb), (nth_lookup_Some _ _ _ Huj).
      rewrite sub_leb_zero by (rewrite Hfin; apply orb_true_r).
      by apply (Hall j l b uj).
Qed.

(** ** The problem container *)

Section ProblemFacts.

Context {Cost Dyn : Type} (StateDimension : Dyn -> nat).
Implicit Types (p : Problem.t Cost Dyn) (k : nat).

Lemma has_handle_true {A : Type} (handles : list (option A)) k :
  Problem.has_handle handles k = true <-> exists h, handles !! k = Some (Some h).
Proof.
  unfold Problem.has_handle.
  destruct (handles !! k) as [[h |] |]; split; try done; try (by intros [? ?]).
  by exists h.
Qed.

Lemma new_knots_allocated (N : nat) :
  knots_allocated (Problem.new (CostFunction:=Cost) (DiscreteDynamics:=Dyn) N).
Proof. split; simpl; by rewrite length_replicate. Qed.

Lemma count_outputs_sum {K : ConType} (cons : list (Constraint K)) : forall cnt,
  Problem.count_outputs cons cnt = (cnt + sum_list_with OutputDimension cons)%nat.
Proof.
  unfold Problem.count_outputs.
  induction cons as [| con cons IH]; intros cnt; simpl; [lia |].
  rewrite IH. lia.
Qed.

Lemma NumConstraints_run p k
    (eqs : list (Constraint Zero)) (ineqs : list (Constraint NegOrthant)) :
  (k <= Problem.N_ p)%nat ->
  Problem.eq_ p !! k = Some eqs -> Problem.ineq_ p !! k = Some ineqs ->
  Problem.NumConstraints k p
  = (Ok (sum_list_with OutputDimension eqs + sum_list_with OutputDimension ineqs)%nat, p).
Proof.
  intros Hk Heq Hineq. unfold Problem.NumConstraints. run.
  apply Nat.leb_le in Hk. rewrite Hk.
  rewrite (run_at _ _ _ _ Heq), (run_at _ _ _ _ Hineq).
  by rewrite !count_outputs_sum.
Qed.

(** C8.  [SetConstraint] with a null handle aborts at every knot, for
    equality and for inequality constraints alike, and leaves the problem,
    its registered constraints included, as it was. *)
Theorem SetConstraint_rejects_null (kind : Problem.Kind) p k :
  exists msg, Problem.SetConstraint kind None k p = (Abort msg, p).
Proof. by eexists. Qed.

Lemma SetConstraint_run (kind : Problem.Kind) (c : Constraint (Problem.cone kind)) p k :
  (0 < OutputDimension c)%nat -> (k <= Problem.N_ p)%nat ->
  Problem.SetConstraint kind (Some c) k p = (Ok tt, Problem.push_constraint c k p).
Proof.
  intros Hc Hk. unfold Problem.SetConstraint. run.
  apply Nat.ltb_lt in Hc. apply Nat.leb_le in Hk. by rewrite Hc, Hk.
Qed.

Lemma SetConstraint_inv (kind : Problem.Kind)
    (con : ConstraintPtr (Problem.cone kind)) p p' k :
  Problem.SetConstraint kind con k p = (Ok tt, p') ->
  exists c, con = Some c /\ (0 < OutputDimension c)%nat /\ (k <= Problem.N_ p)%nat
            /\ p' = Problem.push_constraint c k p.
Proof.
  unfold Problem.SetConstraint. destruct con as [c |]; [| done]. run.
  destruct (0 <? OutputDimension c)%nat eqn:Hc; [| done].
  destruct (k <=? Problem.N_ p)%nat eqn:Hk; [| done].
  intros [= <-]. exists c. apply Nat.ltb_lt in Hc. apply Nat.leb_le in Hk. done.
Qed.

(** C10.  [SetConstraint] aborts on a constraint whose [OutputDimension] is
    zero and leaves the problem as it was; whenever it completes, the handle
    was not null and the constraint has at least one row; and a
    [ControlBound] constructed from the control dimension alone is rejected
    at every knot. *)
Theorem SetConstraint_requires_rows (kind : Problem.Kind)
    (con : ConstraintPtr (Problem.cone kind)) p k :
  (forall c, con = Some c -> OutputDimension c = 0%nat ->
     exists msg, Problem.SetConstraint kind con k p = (Abort msg, p))
  /\ (forall p', Problem.SetConstraint kind con k p = (Ok tt, p') ->
        exists c, con = Some c /\ (0 < OutputDimension c)%nat)
  /\ (forall m, exists msg,
        Problem.SetConstraint Problem.Inequality
          (ControlBound.as_constraint (ControlBound.new_unbounded m)) k p
        = (Abort msg, p)).
Proof.
  split; [| split].
  - intros c -> Hc. unfold Problem.SetConstraint. run. rewrite Hc. by eexists.
  - intros p' (c & -> & Hc & _)%SetConstraint_inv. by exists c.
  - intros m. by eexists.
Qed.

Lemma push_constraint_knots_allocated (kind : Problem.Kind)
    (c : Constraint (Problem.cone kind)) p k :
  knots_allocated p -> knots_allocated (Problem.push_constraint c k p).
Proof.
  intros [Heq Hineq]. destruct kind; split; simpl; by rewrite ?length_alter.
Qed.

(** Every operation keeps the constraint vectors of the knots in place,
    whether it completes or aborts. *)
Lemma SetDynamics_knots_allocated (model : option Dyn) p p' k r :
  knots_allocated p -> Problem.SetDynamics model k p = (r, p') -> knots_allocated p'.
Proof.
  intros Hp. unfold Problem.SetDynamics. run.
  destruct (k <? Problem.N_ p)%nat; by intros [= _ <-].
Qed.

Lemma SetCostFunction_knots_allocated (cost : option Cost) p p' k r :
  knots_allocated p -> Problem.SetCostFunction cost k p = (r, p') -> knots_allocated p'.
Proof.
  intros Hp. unfold Problem.SetCostFunction. run.
  destruct (k <=? Problem.N_ p)%nat; by intros [= _ <-].
Qed.

Lemma SetInitialState_knots_allocated (x0 : VectorXd) p p' r :
  knots_allocated p -> Problem.SetInitialState x0 p = (r, p') -> knots_allocated p'.
Proof. intros Hp. unfold Problem.SetInitialState. run. by intros [= _ <-]. Qed.

Lemma SetConstraint_knots_allocated (kind : Problem.Kind)
    (con : ConstraintPtr (Problem.cone kind)) p p' k r :
  knots_allocated p -> Problem.SetConstraint kind con k p = (r, p') -> knots_allocated p'.
Proof.
  intros Hp. unfold Problem.SetConstraint. destruct con as [c |]; run;
    [| by intros [= _ <-]].
  destruct (0 <? OutputDimension c)%nat; [| by intros [= _ <-]].
  destruct (k <=? Problem.N_ p)%nat; intros [= _ <-]; [| done].
  by apply push_constraint_knots_allocated.
Qed.

(** Registering a constraint adds its rows to the count of its knot. *)
Lemma SetConstraint_adds (kind : Problem.Kind)
    (c : Constraint (Problem.cone kind)) p p' k n :
  knots_allocated p ->
  Problem.SetConstraint kind (Some c) k p = (Ok tt, p') ->
  Problem.NumConstraints k p = (Ok n, p) ->
  Problem.NumConstraints k p' = (Ok (n + OutputDimension c)%nat, p').
Proof.
  intros [Hleq Hlineq] (c' & [= <-] & Hc & Hk & ->)%SetConstraint_inv Hn.
  destruct (lookup_lt_is_Some_2 (Problem.eq_ p) k) as [eqs Heq]; [lia |].
  destruct (lookup_lt_is_Some_2 (Problem.ineq_ p) k) as [ineqs Hineq]; [lia |].
  rewrite (NumConstraints_run p k eqs ineqs Hk Heq Hineq) in Hn. injection Hn as <-.
  destruct kind.
  - assert (Heq' : Problem.eq_ (Problem.push_constraint (kind:=Problem.Equality) c k p) !! k
                   = Some (eqs ++ [c]))
      by (simpl; by rewrite list_lookup_alter_eq, Heq).
    rewrite (NumConstraints_run (Problem.push_constraint (kind:=Problem.Equality) c k p)
              k _ _ Hk Heq' Hineq).
    rewrite sum_list_with_app. simpl. f_equal. f_equal. lia.
  - assert (Hineq' : Problem.ineq_ (Problem.push_constraint (kind:=Problem.Inequality) c k p) !! k
                     = Some (ineqs ++ [c]))
      by (simpl; by rewrite list_lookup_alter_eq, Hineq).
    rewrite (NumConstraints_run (Problem.push_constraint (kind:=Problem.Inequality) c k p)
              k _ _ Hk Heq Hineq').
    rewrite sum_list_with_app. simpl. f_equal. f_equal. lia.
Qed.

(** What a completed call does to the constraints of a knot: it keeps the
    number of segments and the allocation, and appends what it registers. *)
Lemma call_registers (c : Call Cost Dyn) p p' k eqs ineqs :
  knots_allocated p ->
  call c p = (Ok tt, p') ->
  Problem.eq_ p !! k = Some eqs -> Problem.ineq_ p !! k = Some ineqs ->
  knots_allocated p' /\ Problem.N_ p' = Problem.N_ p
  /\ Problem.eq_ p' !! k = Some (eqs ++ registered_eq [c] k)
  /\ Problem.ineq_ p' !! k = Some (ineqs ++ registered_ineq [c] k).
Proof.
  intros Hp Hrun Heq Hineq.
  destruct c as [model k' | cost k' | x0 | kind con k']; simpl in *; rewrite ?app_nil_r.
  - split; [by eapply SetDynamics_knots_allocated |].
    revert Hrun. unfold Problem.SetDynamics. run.
    destruct (k' <? Problem.N_ p)%nat; simpl; [| by intros [=]].
    intros [= <-]; simpl; split; [done | split; done].
  - split; [by eapply SetCostFunction_knots_allocated |].
    revert Hrun. unfold Problem.SetCostFunction. run.
    destruct (k' <=? Problem.N_ p)%nat; simpl; [| by intros [=]].
    intros [= <-]; simpl; split; [done | split; done].
  - split; [by eapply SetInitialState_knots_allocated |].
    revert Hrun. unfold Problem.SetInitialState. run.
    intros [= <-]; simpl; split; [done | split; done].
  - split; [by eapply SetConstraint_knots_allocated |].
    apply SetConstraint_inv in Hrun as (c & -> & _ & _ & ->).
    destruct kind; simpl; rewrite ?app_nil_r; (split; [done |]).
    + split; [| done]. destruct (decide (k' = k)) as [-> | Hne].
      * by rewrite list_lookup_alter_eq, Heq.
      * by rewrite list_lookup_alter_ne, app_nil_r.
    + split; [done |]. destruct (decide (k' = k)) as [-> | Hne].
      * by rewrite list_lookup_alter_eq, Hineq.
      * by rewrite list_lookup_alter_ne, app_nil_r.
Qed.

Lemma calls_register (cs : list (Call Cost Dyn)) : forall p p' k eqs ineqs,
  knots_allocated p ->
  calls cs p = (Ok tt, p') ->
  Problem.eq_ p !! k = Some eqs -> Problem.ineq_ p !! k = Some ineqs ->
  knots_allocated p' /\ Problem.N_ p' = Problem.N_ p
  /\ Problem.eq_ p' !! k = Some (eqs ++ registered_eq cs k)
  /\ Problem.ineq_ p' !! k = Some (ineqs ++ registered_ineq cs k).
Proof.
  induction cs as [| c cs IH]; intros p p' k eqs ineqs Hp Hrun Heq Hineq.
  - injection Hrun as <-. simpl. by rewrite !app_nil_r.
  - change (calls (c :: cs)) with (call c;; calls cs) in Hrun.
    rewrite run_bind in Hrun.
    destruct (call c p) as [[[] | msg] p1] eqn:Hc; [| done].
    destruct (call_registers c p p1 k eqs ineqs Hp Hc Heq Hineq)
      as (Hp1 & HN1 & Heq1 & Hineq1).
    destruct (IH p1 p' k _ _ Hp1 Hrun Heq1 Hineq1) as (Hp' & HN' & Heq' & Hineq').
    split; [done |]. split; [congruence |].
    rewrite Heq', Hineq', <- !app_assoc.
    assert (Hreq : registered_eq (c :: cs) k = registered_eq [c] k ++ registered_eq cs k).
    { destruct c; simpl; try done. by rewrite app_nil_r. }
    assert (Hrineq : registered_ineq (c :: cs) k
                     = registered_ineq [c] k ++ registered_ineq cs k).
    { destruct c; simpl; try done. by rewrite app_nil_r. }
    by rewrite Hreq, Hrineq.
Qed.

(** C4.  At every knot [k] in [0, N], [NumConstraints(k)] returns the sum of
    [OutputDimension] over the equality and the inequality constraints
    registered at [k], and returns 0 when none is registered there.
    Registered at [k] are the constraints the knot held before, followed by
    those the completed calls of [SetConstraint] at [k] passed in, whatever
    other calls came between; on a problem built from [Problem(N)] these are
    the constraints of the calls alone. *)
Theorem NumConstraints_is_sum p0 (cs : list (Call Cost Dyn)) p k :
  knots_allocated p0 -> (k <= Problem.N_ p0)%nat ->
  calls cs p0 = (Ok tt, p) ->
  exists (eqs0 eqs : list (Constraint Zero)) (ineqs0 ineqs : list (Constraint NegOrthant)),
    Problem.eq_ p0 !! k = Some eqs0 /\ Problem.ineq_ p0 !! k = Some ineqs0
    /\ eqs = eqs0 ++ registered_eq cs k /\ ineqs = ineqs0 ++ registered_ineq cs k
    /\ Problem.eq_ p !! k = Some eqs /\ Problem.ineq_ p !! k = Some ineqs
    /\ Problem.NumConstraints k p
       = (Ok (sum_list_with OutputDimension eqs
              + sum_list_with OutputDimension ineqs)%nat, p)
    /\ (eqs = [] -> ineqs = [] -> Problem.NumConstraints k p = (Ok 0%nat, p))
    /\ (forall N, p0 = Problem.new N ->
          Problem.NumConstraints k p
          = (Ok (sum_list_with OutputDimension (registered_eq cs k)
                 + sum_list_with OutputDimension (registered_ineq cs k))%nat, p)).
Proof.
  intros Hp0 Hk Hrun. pose proof Hp0 as [Hleq Hlineq].
  destruct (lookup_lt_is_Some_2 (Problem.eq_ p0) k) as [eqs0 Heq0]; [lia |].
  destruct (lookup_lt_is_Some_2 (Problem.ineq_ p0) k) as [ineqs0 Hineq0]; [lia |].
  destruct (calls_register cs p0 p k eqs0 ineqs0 Hp0 Hrun Heq0 Hineq0)
    as (Hp & HN & Heq & Hineq).
  assert (Hnum : Problem.NumConstraints k p
                 = (Ok (sum_list_with OutputDimension (eqs0 ++ registered_eq cs k)
                        + sum_list_with OutputDimension (ineqs0 ++ registered_ineq cs k))%nat,
                    p))
    by (apply NumConstraints_run; [lia | done | done]).
  exists eqs0, (eqs0 ++ registered_eq cs k), ineqs0, (ineqs0 ++ registered_ineq cs k).
  split; [done |]. split; [done |]. split; [done |]. split; [done |].
  split; [done |]. split; [done |]. split; [done |]. split.
  - intros He Hi. rewrite Hnum, He, Hi. reflexivity.
  - intros N ->. rewrite Hnum. unfold Problem.new in Heq0, Hineq0.
    cbn [Problem.eq_ Problem.ineq_] in Heq0, Hineq0.
    apply lookup_replicate in Heq0 as [-> _]. apply lookup_replicate in Hineq0 as [-> _].
    reflexivity.
Qed.

(** C3.  [IsFullyDefined] returns true exactly when every knot before the
    last has a dynamics and a cost, the last knot has a cost, and the initial
    state has the state dimension declared by the dynamics; and
    [SetInitialState] with a vector of another length completes, after which
    [IsFullyDefined] returns false. *)
Theorem IsFullyDefined_complete p :
  (Problem.IsFullyDefined StateDimension p = true <->
     (forall k, (k < Problem.N_ p)%nat ->
        (exists model, Problem.models_ p !! k = Some (Some model))
        /\ (exists cost, Problem.costfuns_ p !! k = Some (Some cost)))
     /\ (exists cost, Problem.costfuns_ p !! Problem.N_ p = Some (Some cost))
     /\ (exists model, Problem.models_ p !! 0%nat = Some (Some model)
                       /\ length (Problem.initial_state_ p) = StateDimension model))
  /\ (forall x0,
        (forall model, Problem.models_ p !! 0%nat = Some (Some model) ->
                       length x0 <> StateDimension model) ->
        exists p', Problem.SetInitialState x0 p = (Ok tt, p')
                   /\ Problem.IsFullyDefined StateDimension p' = false).
Proof.
  split.
  - unfold Problem.IsFullyDefined.
    rewrite !andb_true_iff, forallb_forall, has_handle_true.
    split.
    + intros [[Hall Hlast] Hdim]. split; [| split; [done |]].
      * intros k Hk. specialize (Hall k). rewrite andb_true_iff, !has_handle_true in Hall.
        apply Hall, in_seq. lia.
      * destruct (Problem.models_ p !! 0%nat) as [[model |] |]; try done.
        exists model. by apply Nat.eqb_eq in Hdim.
    + intros (Hall & Hlast & model & Hmodel & Hdim). split; [split; [| done] |].
      * intros k Hk%in_seq. rewrite andb_true_iff, !has_handle_true. apply Hall. lia.
      * rewrite Hmodel. by apply Nat.eqb_eq.
  - intros x0 Hbad. eexists. split; [reflexivity |].
    unfold Problem.IsFullyDefined. simpl.
    destruct (Problem.models_ p !! 0%nat) as [[model |] |] eqn:Hmodel;
      rewrite ?andb_false_r; try done.
    specialize (Hbad model eq_refl). apply Nat.eqb_neq in Hbad.
    by rewrite Hbad, andb_false_r.
Qed.

End ProblemFacts.

(** ** The claims at concrete inputs *)

Lemma Projection_idempotent_witness :
  exists p, Projection NegOrthant [1; -2] [0; 0] = (Ok tt, p)
            /\ Projection NegOrthant p [7; 7] = (Ok tt, p).
Proof.
  apply (Projection_idempotent NegOrthant [1; -2] [0; 0] [7; 7]); reflexivity.
Defined.

Lemma ControlBound_OutputDimension_witness :
  ControlBound.new [-2; neg_infinity] [infinity; 3]
    = Ok (ControlBound.Build 2 [-2; neg_infinity] [infinity; 3] [0%nat] [1%nat])
  /\ ControlBound.OutputDimension
       (ControlBound.Build 2 [-2; neg_infinity] [infinity; 3] [0%nat] [1%nat])
     = Nat.add
         (length (List.filter (fun b => negb (infinite_bound b)) [-2; neg_infinity]))
         (length (List.filter (fun b => negb (infinite_bound b)) [infinity; 3])).
Proof.
  split; [reflexivity |].
  apply (ControlBound_OutputDimension [-2; neg_infinity] [infinity; 3]).
  reflexivity.
Defined.

Lemma ControlBound_rejects_crossed_bounds_witness :
  exists msg, ControlBound.new [0; 1] [5; 0.5] = Abort msg.
Proof.
  apply (ControlBound_rejects_crossed_bounds [0; 1] [5; 0.5] 1 1 0.5); reflexivity.
Defined.

Lemma ControlBound_Evaluate_feasibility_witness :
  exists c',
    ControlBound.Evaluate (built [-2; neg_infinity] [infinity; 3]) [] [1; 5] [0; 0]
      = (Ok tt, c')
    /\ c' = [-3; 2].
Proof.
  destruct (ControlBound_Evaluate_feasibility
              (built [-2; neg_infinity] [infinity; 3]) [] [1; 5] [0; 0])
    as (c' & Hrun & Hc' & _).
  - repeat split; reflexivity.
  - reflexivity.
  - reflexivity.
  - exists c'. split; [exact Hrun | exact Hc'].
Defined.

Lemma NumConstraints_is_sum_witness :
  exists p,
    calls (Cost:=unit) (Dyn:=nat)
      [CallSetConstraint Problem.Equality (GoalConstraint.Create [1; 2; 3; 4]) 1;
       CallSetDynamics (Some 6%nat) 0;
       CallSetConstraint Problem.Inequality
         (ControlBound.as_constraint (built [-2; -3] [2; infinity])) 1;
       CallSetConstraint Problem.Inequality
         (ControlBound.as_constraint (built [-2; -3] [2; 3])) 0;
       CallSetConstraint Problem.Inequality
         (ControlBound.as_constraint (built [-2; -3] [2; 3])) 1]
      (Problem.new 2) = (Ok tt, p)
    /\ Problem.NumConstraints 1 p = (Ok 11%nat, p).
Proof.
  set (cs := [CallSetConstraint Problem.Equality (GoalConstraint.Create [1; 2; 3; 4]) 1;
              CallSetDynamics (Some 6%nat) 0;
              CallSetConstraint Problem.Inequality
                (ControlBound.as_constraint (built [-2; -3] [2; infinity])) 1;
              CallSetConstraint Problem.Inequality
                (ControlBound.as_constraint (built [-2; -3] [2; 3])) 0;
              CallSetConstraint Problem.Inequality
                (ControlBound.as_constraint (built [-2; -3] [2; 3])) 1]).
  exists (calls (Cost:=unit) (Dyn:=nat) cs (Problem.new 2)).2.
  split; [reflexivity |].
  destruct (NumConstraints_is_sum (Problem.new (CostFunction:=unit) (DiscreteDynamics:=nat) 2)
              cs (calls cs (Problem.new 2)).2 1)
    as (eqs0 & eqs & ineqs0 & ineqs & _ & _ & _ & _ & _ & _ & _ & _ & Hnew).
  - split; reflexivity.
  - simpl. lia.
  - reflexivity.
  - exact (Hnew 2%nat eq_refl).
Defined.

Lemma SetConstraint_requires_rows_witness :
  exists msg,
    Problem.SetConstraint Problem.Inequality
      (ControlBound.as_constraint (ControlBound.new_unbounded 2)) 0
      (Problem.new (CostFunction:=unit) (DiscreteDynamics:=nat) 10)
    = (Abort msg, Problem.new 10).
Proof.
  eapply (proj1 (SetConstraint_requires_rows Problem.Inequality
                   (ControlBound.as_constraint (ControlBound.new_unbounded 2))
                   (Problem.new (CostFunction:=unit) (DiscreteDynamics:=nat) 10) 0));
    reflexivity.
Defined.

Lemma IsFullyDefined_complete_witness :
  exists p',
    Problem.SetInitialState [1; 2]
      (Problem.Build (CostFunction:=unit) (DiscreteDynamics:=nat)
         1 [1; 2; 3] [Some tt; Some tt] [Some 3%nat] [[]; []] [[]; []])
    = (Ok tt, p')
    /\ Problem.IsFullyDefined (fun n : nat => n) p' = false.
Proof.
  apply (proj2 (IsFullyDefined_complete (fun n : nat => n)
                  (Problem.Build (CostFunction:=unit) (DiscreteDynamics:=nat)
                     1 [1; 2; 3] [Some tt; Some tt] [Some 3%nat] [[]; []] [[]; []]))).
  intros model [= <-]. simpl. lia.
Defined.

(** ** The scenarios of [test/problem/problem_test.cpp] *)

(** [ProblemTests.FullyDefined], with dynamics of state dimension 6. *)
Example ProblemTests_FullyDefined :
  let script : M (Problem.t unit nat) (list bool) :=
    for_range 10 (fun k => Problem.SetDynamics (Some 6%nat) k);;
    for_range 11 (fun k => Problem.SetCostFunction (Some tt) k);;
    Problem.SetInitialState [1; 2; 3; 4; 5; 6];;
    p ← get;
    Problem.SetInitialState [1; 2; 3; 4; 5; 6; 7];;
    p_bad ← get;
    mret [Problem.IsFullyDefined (fun n : nat => n) p;
          Problem.IsFullyDefined (fun n : nat => n) p_bad] in
  (script (Problem.new 10)).1 = Ok [true; false].
Proof. reflexivity. Qed.

(** [ProblemTests.Initialization], [AddDynamics] and [DynamicsAndCosts]. *)
Example ProblemTests_not_FullyDefined :
  let script : M (Problem.t unit nat) (list bool) :=
    p0 ← get;
    for_range 10 (fun k => Problem.SetDynamics (Some 6%nat) k);;
    p1 ← get;
    for_range 10 (fun k => Problem.SetCostFunction (Some tt) k);;
    p2 ← get;
    mret [Problem.IsFullyDefined (fun n : nat => n) p0;
          Problem.IsFullyDefined (fun n : nat => n) p1;
          Problem.IsFullyDefined (fun n : nat => n) p2] in
  (script (Problem.new 10)).1 = Ok [false; false; false].
Proof. reflexivity. Qed.

(** [ProblemTests.AddConstraints]. *)
Example ProblemTests_AddConstraints :
  let script (ubnd : ControlBound.t) : M (Problem.t unit nat) (list nat) :=
    Problem.SetConstraint Problem.Equality (GoalConstraint.Create [1; 2; 3; 4]) 10;;
    n1 ← Problem.NumConstraints 10;
    n2 ← Problem.NumConstraints 1;
    for_range 10 (fun k =>
      Problem.SetConstraint Problem.Inequality (ControlBound.as_constraint ubnd) k);;
    n3 ← Problem.NumConstraints 0;
    n4 ← Problem.NumConstraints 9;
    mret [n1; n2; ControlBound.OutputDimension ubnd; n3; n4] in
  exists ubnd, ControlBound.new [-2; -3] [2; 3] = Ok ubnd
               /\ (script ubnd (Problem.new 10)).1 = Ok [4; 0; 4; 4; 4]%nat.
Proof. eexists. split; reflexivity. Qed.

(** [ProblemTests.AddConstraintsDeath]. *)
Example ProblemTests_AddConstraintsDeath :
  (Problem.SetConstraint Problem.Equality None 10
     (Problem.new (CostFunction:=unit) (DiscreteDynamics:=nat) 10)).1
    = Abort "Must provide a valid constraint pointer."
  /\ (Problem.SetConstraint Problem.Inequality
        (ControlBound.as_constraint (ControlBound.new_unbounded 2)) 0
        (Problem.new (CostFunction:=unit) (DiscreteDynamics:=nat) 10)).1
    = Abort "Constraint must have a length greater than zero."
  /\ (Problem.SetConstraint Problem.Inequality None 0
        (Problem.new (CostFunction:=unit) (DiscreteDynamics:=nat) 10)).1
    = Abort "Must provide a valid constraint pointer.".
Proof. repeat split. Qed.

(** * Further properties of the code *)

(** ** More binary64 arithmetic *)

Section MoreSpecFloatFacts.

Local Open Scope Z_scope.

Lemma binary_normalize_compare_zero (m e : Z) :
  emin <= e ->
  SFcompare (binary_normalize prec emax m e false) (S754_zero false) = Some (m ?= 0).
Proof.
  intros He. destruct m as [| m | m]; simpl; [reflexivity | |].
  - pose proof (binary_round_sign false m e He) as H.
    destruct (binary_round prec emax false m e); simpl in H; try done; subst; reflexivity.
  - pose proof (binary_round_sign true m e He) as H.
    destruct (binary_round prec emax true m e); simpl in H; try done; subst; reflexivity.
Qed.

Lemma SFsub_finite_compare_zero (sx sy : bool) (mx my : positive) (ex ey : Z) :
  bounded prec emax mx ex = true -> bounded prec emax my ey = true ->
  SFcompare (SF64sub (S754_finite sx mx ex) (S754_finite sy my ey)) (S754_zero false)
  = SFcompare (S754_finite sx mx ex) (S754_finite sy my ey).
Proof.
  intros Hx Hy. unfold SF64sub, SFsub.
  rewrite binary_normalize_compare_zero
    by (pose proof (bounded_emin _ _ Hx); pose proof (bounded_emin _ _ Hy); lia).
  pose proof (canonical_compare mx my ex ey Hx Hy) as Hc.
  set (ax := Z.pos (fst (shl_align mx ex (Z.min ex ey)))) in *.
  set (ay := Z.pos (fst (shl_align my ey (Z.min ex ey)))) in *.
  assert (0 < ax /\ 0 < ay) as [Hax Hay] by (unfold ax, ay; lia).
  assert (Hc' : match ex ?= ey with
                | Lt => Gt
                | Gt => Lt
                | Eq => CompOpp (Pos.compare_cont Eq mx my)
                end = CompOpp (ax ?= ay))
    by (rewrite Hc; destruct (ex ?= ey); reflexivity).
  unfold SFcompare. f_equal.
  destruct sx, sy; simpl cond_Zopp.
  - rewrite Hc'. destruct (Z.compare_spec ax ay); simpl;
      first [apply Z.compare_eq_iff | apply Z.compare_lt_iff | apply Z.compare_gt_iff]; lia.
  - apply Z.compare_lt_iff. lia.
  - apply Z.compare_gt_iff. lia.
  - rewrite <- Hc. destruct (Z.compare_spec ax ay); simpl;
      first [apply Z.compare_eq_iff | apply Z.compare_lt_iff | apply Z.compare_gt_iff]; lia.
Qed.

(** With one operand finite, the difference compares to zero the way the
    operands compare to each other. *)
Lemma SFsub_compare_zero (x y : spec_float) :
  valid_binary x = true -> valid_binary y = true ->
  SF_is_finite x || SF_is_finite y = true ->
  SFcompare (SF64sub x y) (S754_zero false) = SFcompare x y.
Proof.
  intros Hx Hy Hfin.
  destruct x as [sx | sx | | sx mx ex], y as [sy | sy | | sy my ey];
    try discriminate Hfin; try reflexivity;
    try (by destruct sx, sy); try (by destruct sx); try (by destruct sy).
  by apply SFsub_finite_compare_zero.
Qed.

Lemma SFcompare_refl (x : spec_float) :
  x <> S754_nan -> SFcompare x x = Some Eq.
Proof.
  destruct x as [s | s | | s m e]; try done; try (by destruct s).
  intros _. unfold SFcompare. rewrite Z.compare_refl.
  change (PosDef.Pos.compare_cont Eq m m) with (Pos.compare m m).
  rewrite Pos.compare_refl. by destruct s.
Qed.

End MoreSpecFloatFacts.

Lemma sub_compare_zero (x y : double) :
  is_finite x || is_finite y = true ->
  SFcompare (Prim2SF (x - y)) (Prim2SF 0) = SFcompare (Prim2SF x) (Prim2SF y).
Proof.
  intros H. rewrite sub_spec.
  replace (Prim2SF 0) with (S754_zero false) by reflexivity.
  apply SFsub_compare_zero; try apply Prim2SF_valid.
  apply orb_true_iff in H as [H | H]; apply is_finite_spec in H; rewrite H;
    [done | apply orb_true_r].
Qed.

(** [x - y == 0] exactly when [x == y], one of the two being finite. *)
Lemma sub_eqb_zero (x y : double) :
  is_finite x || is_finite y = true -> (x - y =? 0) = (x =? y).
Proof.
  intros H. rewrite !FloatAxioms.eqb_spec. unfold SFeqb. by rewrite sub_compare_zero.
Qed.

Lemma sub_self (x : double) : is_finite x = true -> x - x = 0.
Proof.
  intros H%is_finite_spec. apply Prim2SF_inj. rewrite sub_spec.
  replace (Prim2SF 0) with (S754_zero false) by reflexivity.
  pose proof (Prim2SF_valid x) as Hv.
  destruct (Prim2SF x) as [s | s | | s m e]; try done.
  - by destruct s.
  - unfold SF64sub, SFsub.
    assert (Hd : forall t : Z, IntDef.Z.sub t t = 0%Z) by (intros t; apply Z.sub_diag).
    rewrite (Hd (cond_Zopp s _)). reflexivity.
Qed.

Lemma ltb_leb_true (x y : double) : (x <? y) = true -> (x <=? y) = true.
Proof.
  rewrite ltb_spec, leb_spec. unfold SFltb, SFleb.
  by destruct (SFcompare _ _) as [[] |].
Qed.

(** [std::min(0, x)] is never positive, and numerically equals [x] exactly
    when [x <= 0]. *)
Lemma std_min_nonpos (x : double) : (std_min 0 x <=? 0) = true.
Proof.
  unfold std_min. destruct (x <? 0) eqn:E; [by apply ltb_leb_true | reflexivity].
Qed.

Lemma std_min_fixes (x : double) : (std_min 0 x =? x) = (x <=? 0).
Proof.
  unfold std_min. rewrite ltb_spec, leb_spec. unfold SFltb, SFleb.
  destruct (SFcompare (Prim2SF x) (Prim2SF 0)) as [[] |] eqn:E; rewrite FloatAxioms.eqb_spec; unfold SFeqb.
  - by rewrite (SFcompare_antisym (Prim2SF x) (Prim2SF 0)), E.
  - rewrite SFcompare_refl; [done |]. intros Hn. by rewrite Hn in E.
  - by rewrite (SFcompare_antisym (Prim2SF x) (Prim2SF 0)), E.
  - by rewrite (SFcompare_antisym (Prim2SF x) (Prim2SF 0)), E.
Qed.

(** A bound is finite for [GetFiniteIndices] exactly when it lies strictly
    between [-max] and [max]. *)
Lemma is_finite_between (b : double) :
  is_finite b = (- DBL_MAX <? b) && (b <? DBL_MAX).
Proof.
  unfold is_finite. rewrite !ltb_spec, abs_spec, opp_spec.
  replace (Prim2SF DBL_MAX) with (SFmax_float prec emax) by reflexivity.
  destruct (Prim2SF b) as [s | s | | s m e].
  - by destruct s.
  - by destruct s.
  - reflexivity.
  - unfold SFmax_float.
    generalize (Pos.iter xO 1 (Z.to_pos prec) - 1)%positive as M.
    generalize (emax - prec)%Z as E. intros E M.
    unfold SFabs, SFopp. change (negb false) with true.
    unfold SFltb, SFcompare.
    destruct s.
    + rewrite andb_true_r. rewrite (Z.compare_antisym e E).
      destruct (e ?= E)%Z; unfold CompOpp; [| reflexivity | reflexivity].
      change (PosDef.Pos.compare_cont Eq M m) with (Pos.compare M m).
      change (PosDef.Pos.compare_cont Eq m M) with (Pos.compare m M).
      rewrite (Pos.compare_antisym m M).
      by destruct (Pos.compare m M).
    + by rewrite andb_true_l.
Qed.

(** ** More on the cones *)

(** X1.  The projection of every cone checks the size of the output first:
    when [x] and [x_proj] differ in size it aborts with the message of its
    assertion and leaves [x_proj] as it was. *)
Theorem Projection_size_mismatch (K : ConType) (x x_proj : VectorXd) :
  length x <> length x_proj ->
  Projection K x x_proj = (Abort "x and x_proj must be the same size", x_proj).
Proof.
  intros Hne%Nat.eqb_neq.
  destruct K; simpl;
    unfold ZeroCone.Projection, IdentityCone.Projection, NegativeOrthant.Projection;
    run; by rewrite Hne.
Qed.

(** X2.  On an output of the size of [v] the projection of every cone
    completes, and what it writes has the size of [v] and lies in the cone:
    all zeros for [ZeroCone], [v] itself for [IdentityCone], and for
    [NegativeOrthant] the components [std::min(0, v_i)], each [<= 0], NaN
    components of [v] included. *)
Theorem Projection_in_cone (K : ConType) (v x_proj : VectorXd) :
  length x_proj = length v ->
  exists p, Projection K v x_proj = (Ok tt, p)
            /\ length p = length v
            /\ in_cone K p
            /\ p = match K with
                   | Zero => replicate (length v) 0
                   | Identity => v
                   | NegOrthant => std_min 0 <$> v
                   end.
Proof.
  intros Hlen. destruct K; simpl.
  - exists (replicate (length v) 0). split; [by apply ZeroCone_Projection_run |].
    split; [by rewrite length_replicate |]. split; [| done].
    apply Forall_forall. by intros y [-> _]%elem_of_replicate.
  - exists v. split; [by apply IdentityCone_Projection_run | done].
  - exists (std_min 0 <$> v). split; [by apply NegativeOrthant_Projection_run |].
    split; [by rewrite length_fmap |]. split; [| done].
    unfold in_NegativeOrthant. rewrite Forall_fmap. apply Forall_forall.
    intros y _. apply std_min_nonpos.
Qed.

Lemma Forall2_fmap_diag {A B : Type} (R : B -> A -> Prop) (f : A -> B) (l : list A) :
  Forall2 R (f <$> l) l <-> Forall (fun x => R (f x) x) l.
Proof.
  induction l as [| x l IH]; simpl.
  - split; constructor.
  - rewrite Forall2_cons, Forall_cons. by rewrite IH.
Qed.

(** X3.  [NegativeOrthant::Projection] returns its argument, compared
    component by component with [==], exactly when the argument is in the
    cone, that is when every [v_i <= 0]. *)
Theorem NegativeOrthant_Projection_fixes_cone (v x_proj : VectorXd) :
  length x_proj = length v ->
  exists p, NegativeOrthant.Projection v x_proj = (Ok tt, p)
            /\ (Forall2 (fun pi vi => (pi =? vi) = true) p v <-> in_NegativeOrthant v).
Proof.
  intros Hlen. exists (std_min 0 <$> v).
  split; [by apply NegativeOrthant_Projection_run |].
  unfold in_NegativeOrthant. rewrite Forall2_fmap_diag. split; intros H; eapply Forall_impl; try exact H;
    intros y Hy; simpl in *.
  - by rewrite <- std_min_fixes.
  - by rewrite std_min_fixes.
Qed.

Lemma coeff_setZero (a : MatrixXd) (i j : nat) :
  coeff ((fun r : list double => replicate (length r) 0) <$> a) i j
  = (fun _ => 0) <$> coeff a i j.
Proof.
  unfold coeff. rewrite list_lookup_fmap.
  destruct (a !! i) as [r |]; simpl; [| done].
  destruct (r !! j) as [y |] eqn:Hj; simpl.
  - apply lookup_replicate_2. by eapply lookup_lt_Some.
  - apply lookup_replicate_None. by apply lookup_ge_None.
Qed.

Lemma coeff_setIdentity (a : MatrixXd) (i j : nat) :
  coeff (imap (fun i (r : list double) =>
                 imap (fun j (_ : double) => if decide (i = j) then 1 else 0) r) a) i j
  = (fun _ => if decide (i = j) then 1 else 0) <$> coeff a i j.
Proof.
  unfold coeff. rewrite list_lookup_imap.
  destruct (a !! i) as [r |]; simpl; [| done].
  by rewrite list_lookup_imap.
Qed.

(** X4.  [ZeroCone::Jacobian] and [IdentityCone::Jacobian] overwrite every
    coefficient of the buffer, with the zero and the identity matrix, so what
    the buffer held does not show in the result; [ZeroCone::Jacobian] takes a
    buffer of any shape, while [IdentityCone::Jacobian] and
    [NegativeOrthant::Jacobian] abort on one that is not square and leave
    it. *)
Theorem Jacobian_overwrites_buffer (x : VectorXd) (jac : MatrixXd) :
  (exists jac',
     ZeroCone.Jacobian x jac = (Ok tt, jac')
     /\ forall i j, coeff jac' i j = (fun _ => 0) <$> coeff jac i j)
  /\ (rows jac = cols jac ->
      exists jac',
        IdentityCone.Jacobian x jac = (Ok tt, jac')
        /\ forall i j, coeff jac' i j
                       = (fun _ => if decide (i = j) then 1 else 0) <$> coeff jac i j)
  /\ (rows jac <> cols jac ->
      IdentityCone.Jacobian x jac = (Abort "Jacobian must be square.", jac)
      /\ NegativeOrthant.Jacobian x jac = (Abort "Jacobian must be square.", jac)).
Proof.
  split; [| split].
  - eexists. split; [reflexivity |]. apply coeff_setZero.
  - intros Hsq. eexists. split.
    + unfold IdentityCone.Jacobian. run. by rewrite Hsq, Nat.eqb_refl.
    + apply coeff_setIdentity.
  - intros Hne%Nat.eqb_neq.
    unfold IdentityCone.Jacobian, NegativeOrthant.Jacobian. run. by rewrite Hne.
Qed.

(** X5.  The three cones share one Hessian: on a square buffer and vectors
    [x], [b] of one size each sets every coefficient to zero; otherwise the
    three abort with the same message and leave the buffer. *)
Theorem Hessian_of_every_cone (x b : VectorXd) (hess : MatrixXd) :
  let zeroed := (fun r : list double => replicate (length r) 0) <$> hess in
  (rows hess = cols hess -> length x = length b ->
     ZeroCone.Hessian x b hess = (Ok tt, zeroed)
     /\ IdentityCone.Hessian x b hess = (Ok tt, zeroed)
     /\ NegativeOrthant.Hessian x b hess = (Ok tt, zeroed)
     /\ forall i j, coeff zeroed i j = (fun _ => 0) <$> coeff hess i j)
  /\ (rows hess <> cols hess \/ length x <> length b ->
      exists msg,
        ZeroCone.Hessian x b hess = (Abort msg, hess)
        /\ IdentityCone.Hessian x b hess = (Abort msg, hess)
        /\ NegativeOrthant.Hessian x b hess = (Abort msg, hess)).
Proof.
  split.
  - intros Hsq Hlen.
    unfold ZeroCone.Hessian, IdentityCone.Hessian, NegativeOrthant.Hessian, Matrix_setZero.
    run. rewrite Hsq, Hlen, !Nat.eqb_refl. repeat split. apply coeff_setZero.
  - intros Hbad.
    unfold ZeroCone.Hessian, IdentityCone.Hessian, NegativeOrthant.Hessian. run.
    destruct (rows hess =? cols hess)%nat eqn:Hsq; [| by eexists].
    destruct (length x =? length b)%nat eqn:Hlen; [| by eexists].
    apply Nat.eqb_eq in Hsq, Hlen. by destruct Hbad.
Qed.

(** ** More on the control bounds *)

Lemma indices_where_sorted (P : double -> bool) (l : list double) : forall first,
  StronglySorted lt (indices_where P first l).
Proof.
  induction l as [| b l IH]; intros first; simpl; [constructor |].
  destruct (P b); [| apply IH].
  constructor; [apply IH |].
  apply Forall_forall. intros j (? & Hle & _)%elem_of_indices_where. lia.
Qed.

(** X6.  [GetFiniteIndices] discards what the index vector held and fills
    it with exactly the positions [j] whose bound satisfies
    [-max < bound[j] < max], in increasing order and without repeats; the
    position of a NaN, of an infinity or of [±max] is never listed. *)
Theorem GetFiniteIndices_lists_finite_bounds (bound : list double) (index : list nat) :
  exists index',
    ControlBound.GetFiniteIndices bound index = (Ok tt, index')
    /\ (forall j, j ∈ index' <->
          exists b, bound !! j = Some b
                    /\ (- DBL_MAX <? b) = true /\ (b <? DBL_MAX) = true)
    /\ StronglySorted lt index'.
Proof.
  exists (indices_where is_finite 0 bound).
  split; [apply GetFiniteIndices_run |]. split; [| apply indices_where_sorted].
  intros j. rewrite elem_of_indices_where. rewrite Nat.sub_0_r.
  split.
  - intros (b & _ & Hb & Hfin). exists b. split; [done |].
    rewrite is_finite_between in Hfin. by apply andb_prop in Hfin.
  - intros (b & Hb & H1 & H2). exists b. split; [lia |]. split; [done |].
    by rewrite is_finite_between, H1, H2.
Qed.

(** A loop of checks that can fail with one message only aborts with it. *)
Lemma for_loop_checks_abort_with {St : Type} (chk : nat -> result unit)
    (body : nat -> M St unit) (msg : string) (count : nat) : forall (first i : nat) (s : St),
  (forall i s, body i s = (chk i, s)) ->
  (forall j, (first <= j < first + count)%nat -> chk j = Ok tt \/ chk j = Abort msg) ->
  (first <= i < first + count)%nat -> chk i = Abort msg ->
  for_loop body first count s = (Abort msg, s).
Proof.
  induction count as [| count IH]; intros first i s Hbody Hall Hi Hchk; [lia |].
  simpl. rewrite run_bind, Hbody.
  destruct (Hall first ltac:(lia)) as [Hok | Hab]; rewrite ?Hok, ?Hab; [| done].
  apply (IH (S first) i); try done.
  - intros j Hj. apply Hall. lia.
  - destruct (decide (i = first)) as [-> | Hne]; [congruence | lia].
Qed.

(** The componentwise test of [ValidateBounds] on two vectors. *)
Lemma forallb_leb_lookup (lb ub : list double) :
  forallb (fun lu => lu.1 <=? lu.2) (zip lb ub) = true
  <-> forall i l u, lb !! i = Some l -> ub !! i = Some u -> (l <=? u) = true.
Proof.
  rewrite forallb_forall. split.
  - intros H i l u Hl Hu. apply (H (l, u)).
    apply list_elem_of_In, list_elem_of_lookup. exists i.
    by rewrite lookup_zip_with, Hl; simpl; rewrite Hu.
  - intros H [l u] Hin%list_elem_of_In. apply list_elem_of_lookup in Hin as [i Hi].
    apply lookup_zip_with_Some in Hi as (l' & u' & [= -> ->] & Hl & Hu).
    simpl. by apply (H i).
Qed.

Lemma forallb_false_elem {A : Type} (f : A -> bool) (l : list A) :
  forallb f l = false -> exists i x, l !! i = Some x /\ f x = false.
Proof.
  induction l as [| x l IH]; simpl; [done |].
  destruct (f x) eqn:Hx; simpl.
  - intros (i & y & Hi & Hy)%IH. by exists (S i), y.
  - intros _. by exists 0%nat, x.
Qed.

Lemma ValidateBounds_cases (self : ControlBound.t) :
  length (ControlBound.lower_bound_ self) = ControlBound.m_ self ->
  length (ControlBound.upper_bound_ self) = ControlBound.m_ self ->
  ControlBound.ValidateBounds self
  = (if forallb (fun lu => lu.1 <=? lu.2)
          (zip (ControlBound.lower_bound_ self) (ControlBound.upper_bound_ self))
     then Ok tt
     else Abort "Lower bound isn't less than the upper bound.", self).
Proof.
  intros Hlb Hub.
  destruct (forallb _ _) eqn:Hall.
  - apply ValidateBounds_ok. intros i Hi.
    destruct (lookup_lt_is_Some_2 (ControlBound.lower_bound_ self) i) as [l Hl]; [lia |].
    destruct (lookup_lt_is_Some_2 (ControlBound.upper_bound_ self) i) as [u Hu]; [lia |].
    unfold bound_check. rewrite Hl, Hu.
    by rewrite (proj1 (forallb_leb_lookup _ _) Hall i l u Hl Hu).
  - assert (Hex : exists i l u,
               ControlBound.lower_bound_ self !! i = Some l
               /\ ControlBound.upper_bound_ self !! i = Some u /\ (l <=? u) = false).
    { apply forallb_false_elem in Hall as (i & [l u] & Hi & Hlu).
      apply lookup_zip_with_Some in Hi as (l' & u' & [= -> ->] & Hl & Hu).
      by exists i, l', u'. }
    destruct Hex as (i & l & u & Hl & Hu & Hlu).
    unfold ControlBound.ValidateBounds, for_range. rewrite run_bind. simpl.
    apply (for_loop_checks_abort_with (bound_check self) _ _ _ 0%nat i).
    + apply ValidateBounds_body.
    + intros j [_ Hj]. simpl in Hj.
      destruct (lookup_lt_is_Some_2 (ControlBound.lower_bound_ self) j) as [l' Hl']; [lia |].
      destruct (lookup_lt_is_Some_2 (ControlBound.upper_bound_ self) j) as [u' Hu']; [lia |].
      unfold bound_check. rewrite Hl', Hu'. destruct (l' <=? u'); [by left | by right].
    + split; [lia |]. simpl. rewrite <- Hlb. by eapply lookup_lt_Some.
    + unfold bound_check. by rewrite Hl, Hu, Hlu.
Qed.

(** X7.  The constructor [ControlBound(lb, ub)] by cases, in the order of
    its checks: bounds of different lengths, then empty bounds, then a
    coordinate where [lb_i <= ub_i] fails, each abort with the message of its
    assertion; in every other case the object holds the bounds and the index
    vectors of their finite entries. *)
Theorem ControlBound_new_cases (lb ub : list double) :
  ControlBound.new lb ub
  = if negb (length lb =? length ub)%nat
    then Abort "Upper and lower bounds must have the same length."
    else if negb (0 <? length lb)%nat
    then Abort "Cannot pass in empty bounds."
    else if forallb (fun lu => lu.1 <=? lu.2) (zip lb ub)
    then Ok (built lb ub)
    else Abort "Lower bound isn't less than the upper bound.".
Proof.
  destruct (length lb =? length ub)%nat eqn:Hlen; simpl.
  2: { unfold ControlBound.new, ControlBound.ctor_body. run. by rewrite Hlen. }
  apply Nat.eqb_eq in Hlen.
  destruct (0 <? length lb)%nat eqn:Hpos; simpl.
  2: { unfold ControlBound.new, ControlBound.ctor_body. run.
       by rewrite Hlen, Nat.eqb_refl, <- Hlen, Hpos. }
  apply Nat.ltb_lt in Hpos.
  unfold ControlBound.new. rewrite ctor_body_run by done.
  rewrite ValidateBounds_cases by done. simpl.
  by destruct (forallb _ _).
Qed.

(** X8.  A NaN in either bound vector makes the constructor
    [ControlBound(lb, ub)] abort. *)
Theorem ControlBound_rejects_nan (lb ub : list double) (i : nat) :
  lb !! i = Some nan \/ ub !! i = Some nan ->
  exists msg, ControlBound.new lb ub = Abort msg.
Proof.
  intros Hnan.
  destruct (ControlBound.new lb ub) as [self | msg] eqn:Hnew; [| by eexists].
  apply ControlBound_new_inv in Hnew as (_ & Hlen & _ & Hall).
  destruct Hnan as [Hl | Hu].
  - destruct (lookup_lt_is_Some_2 ub i) as [u Hu];
      [rewrite <- Hlen; by eapply lookup_lt_Some |].
    specialize (Hall i nan u Hl Hu). apply leb_not_nan_l in Hall. done.
  - destruct (lookup_lt_is_Some_2 lb i) as [l Hl];
      [rewrite Hlen; by eapply lookup_lt_Some |].
    specialize (Hall i l nan Hl Hu). apply leb_not_nan_r in Hall. done.
Qed.

Lemma SetUpperBound_cases (self : ControlBound.t) (ub : list double) :
  length (ControlBound.lower_bound_ self) = ControlBound.m_ self ->
  ControlBound.SetUpperBound ub self
  = (if negb (length ub =? ControlBound.m_ self)%nat
     then (Abort "Inconsistent control dimension when setting upper bound.", self)
     else
       (if forallb (fun lu => lu.1 <=? lu.2) (zip (ControlBound.lower_bound_ self) ub)
        then Ok tt
        else Abort "Lower bound isn't less than the upper bound.",
        ControlBound.Build (ControlBound.m_ self) (ControlBound.lower_bound_ self) ub
          (ControlBound.index_lower_bound_ self) (indices_where is_finite 0 ub))).
Proof.
  intros Hlb. unfold ControlBound.SetUpperBound. run.
  destruct (length ub =? ControlBound.m_ self)%nat eqn:Hm; simpl; [| done].
  apply Nat.eqb_eq in Hm. rewrite GetFiniteIndices_run.
  cbv beta iota zeta delta
    [ControlBound.set_index_upper_bound_ ControlBound.set_upper_bound_
     ControlBound.upper_bound_ ControlBound.lower_bound_ ControlBound.m_
     ControlBound.index_upper_bound_ ControlBound.index_lower_bound_].
  destruct self as [m lower upper il iu]. simpl in *.
  by rewrite ValidateBounds_cases.
Qed.

Lemma SetLowerBound_cases (self : ControlBound.t) (lb : list double) :
  length (ControlBound.upper_bound_ self) = ControlBound.m_ self ->
  ControlBound.SetLowerBound lb self
  = (if negb (length lb =? ControlBound.m_ self)%nat
     then (Abort "Inconsistent control dimension when setting lower bound.", self)
     else
       (if forallb (fun lu => lu.1 <=? lu.2) (zip lb (ControlBound.upper_bound_ self))
        then Ok tt
        else Abort "Lower bound isn't less than the upper bound.",
        ControlBound.Build (ControlBound.m_ self) lb (ControlBound.upper_bound_ self)
          (indices_where is_finite 0 lb) (ControlBound.index_upper_bound_ self))).
Proof.
  intros Hub. unfold ControlBound.SetLowerBound. run.
  destruct (length lb =? ControlBound.m_ self)%nat eqn:Hm; simpl; [| done].
  apply Nat.eqb_eq in Hm. rewrite GetFiniteIndices_run.
  cbv beta iota zeta delta
    [ControlBound.set_index_lower_bound_ ControlBound.set_lower_bound_
     ControlBound.upper_bound_ ControlBound.lower_bound_ ControlBound.m_
     ControlBound.index_upper_bound_ ControlBound.index_lower_bound_].
  destruct self as [m lower upper il iu]. simpl in *.
  by rewrite ValidateBounds_cases.
Qed.

(** X9.  [SetUpperBound] and [SetLowerBound] reject a vector of another
    size than the control dimension before they change anything.  Otherwise
    they store the new bound and recompute its index vector (the other bound
    and its index vector are kept) before [ValidateBounds] runs: the call
    completes when [lb_i <= ub_i] everywhere, and when it aborts the object
    already holds the new bound. *)
Theorem ControlBound_setter_cases (self : ControlBound.t) (b : list double) :
  length (ControlBound.lower_bound_ self) = ControlBound.m_ self ->
  length (ControlBound.upper_bound_ self) = ControlBound.m_ self ->
  ControlBound.SetUpperBound b self
  = (if negb (length b =? ControlBound.m_ self)%nat
     then (Abort "Inconsistent control dimension when setting upper bound.", self)
     else
       (if forallb (fun lu => lu.1 <=? lu.2) (zip (ControlBound.lower_bound_ self) b)
        then Ok tt
        else Abort "Lower bound isn't less than the upper bound.",
        ControlBound.Build (ControlBound.m_ self) (ControlBound.lower_bound_ self) b
          (ControlBound.index_lower_bound_ self) (indices_where is_finite 0 b)))
  /\ ControlBound.SetLowerBound b self
  = (if negb (length b =? ControlBound.m_ self)%nat
     then (Abort "Inconsistent control dimension when setting lower bound.", self)
     else
       (if forallb (fun lu => lu.1 <=? lu.2) (zip b (ControlBound.upper_bound_ self))
        then Ok tt
        else Abort "Lower bound isn't less than the upper bound.",
        ControlBound.Build (ControlBound.m_ self) b (ControlBound.upper_bound_ self)
          (indices_where is_finite 0 b) (ControlBound.index_upper_bound_ self))).
Proof.
  intros Hlb Hub. split; [by apply SetUpperBound_cases | by apply SetLowerBound_cases].
Qed.

Lemma length_indices_where_le (P : double -> bool) (l : list double) (first : nat) :
  (length (indices_where P first l) <= length l)%nat.
Proof.
  revert first. induction l as [| b l IH]; intros first; simpl; [lia |].
  destruct (P b); simpl; specialize (IH (S first)); lia.
Qed.

Lemma ValidateBounds_validated (self self' : ControlBound.t) :
  length (ControlBound.lower_bound_ self) = ControlBound.m_ self ->
  ControlBound.ValidateBounds self = (Ok tt, self') -> validated self'.
Proof.
  intros Hlb [-> Hall]%ValidateBounds_inv i l u Hl Hu.
  specialize (Hall i ltac:(rewrite <- Hlb; by eapply lookup_lt_Some)).
  unfold bound_check in Hall. rewrite Hl, Hu in Hall. by destruct (l <=? u).
Qed.

(** X10.  Every [ControlBound] object built by a constructor and changed by
    setters that completed keeps its invariant: both bounds have the control
    dimension, each index vector lists the finite entries of its bound,
    [lb_i <= ub_i] in every coordinate, and [OutputDimension] is at most
    twice the control dimension. *)
Theorem reachable_invariant (self : ControlBound.t) :
  reachable self ->
  consistent self /\ validated self
  /\ (ControlBound.OutputDimension self <= 2 * ControlBound.m_ self)%nat.
Proof.
  intros Hreach.
  assert (Hinv : consistent self /\ validated self).
  { induction Hreach as [m | lb ub self Hnew | ub self self' _ [IHc IHv] Hset
                        | lb self self' _ [IHc IHv] Hset].
    - split; [apply new_unbounded_consistent |].
      intros i l u [-> _]%lookup_replicate [-> _]%lookup_replicate. reflexivity.
    - split; [by eapply ControlBound_new_consistent |].
      by apply ControlBound_new_inv in Hnew as (-> & _ & _ & Hall).
    - split; [by eapply SetUpperBound_consistent |].
      destruct IHc as (Hlb & Hub & _).
      rewrite (SetUpperBound_cases self ub Hlb) in Hset.
      destruct (length ub =? ControlBound.m_ self)%nat; simpl in Hset; [| done].
      destruct (forallb _ _) eqn:Hall; [| done]. injection Hset as <-.
      intros i l u Hl Hu. simpl in *. by apply (proj1 (forallb_leb_lookup _ _) Hall i).
    - split; [by eapply SetLowerBound_consistent |].
      destruct IHc as (Hlb & Hub & _).
      rewrite (SetLowerBound_cases self lb Hub) in Hset.
      destruct (length lb =? ControlBound.m_ self)%nat; simpl in Hset; [| done].
      destruct (forallb _ _) eqn:Hall; [| done]. injection Hset as <-.
      intros i l u Hl Hu. simpl in *. by apply (proj1 (forallb_leb_lookup _ _) Hall i). }
  destruct Hinv as [Hc Hv]. split; [done |]. split; [done |].
  destruct Hc as (Hlb & Hub & HL & HU). unfold ControlBound.OutputDimension.
  rewrite HL, HU.
  pose proof (length_indices_where_le is_finite (ControlBound.lower_bound_ self) 0).
  pose proof (length_indices_where_le is_finite (ControlBound.upper_bound_ self) 0).
  lia.
Qed.

(** X11.  [ControlBound::Evaluate] writes the rows of the finite lower
    bounds, then those of the finite upper bounds, into the first
    [OutputDimension] coefficients of [c] and nothing else: on a longer
    buffer the remaining coefficients keep their values. *)
Theorem ControlBound_Evaluate_prefix (self : ControlBound.t) (x u c : VectorXd) :
  consistent self ->
  length u = ControlBound.m_ self ->
  (ControlBound.OutputDimension self <= length c)%nat ->
  ControlBound.Evaluate self x u c
  = (Ok tt, (lower_row self u <$> ControlBound.index_lower_bound_ self)
            ++ (upper_row self u <$> ControlBound.index_upper_bound_ self)
            ++ drop (ControlBound.OutputDimension self) c).
Proof.
  intros (Hlb & Hub & HL & HU) Hu Hc.
  unfold ControlBound.OutputDimension in *.
  unfold ControlBound.Evaluate.
  rewrite run_bind, Hu, Nat.eqb_refl, run_assert_true, run_bind.
  set (L := ControlBound.index_lower_bound_ self) in *.
  set (U := ControlBound.index_upper_bound_ self) in *.
  rewrite <- (length_fmap (lower_row self u) L) at 1.
  rewrite (for_loop_fill (lower_row self u <$> L) 0).
  - rewrite <- (length_fmap (upper_row self u) U) at 1.
    rewrite (for_loop_fill (upper_row self u <$> U) (length L)).
    + f_equal. simpl. rewrite !length_fmap.
      rewrite take_app_length' by (symmetry; apply length_fmap).
      f_equal. f_equal.
      rewrite drop_app_ge by (rewrite length_fmap; lia).
      rewrite length_fmap, drop_drop. f_equal. lia.
    + simpl. rewrite !length_app, !length_fmap, length_drop. lia.
    + intros i v s Hv. rewrite list_lookup_fmap in Hv.
      destruct (U !! i) as [j |] eqn:Hj; [| done]. injection Hv as <-.
      destruct (indices_where_lt is_finite (ControlBound.upper_bound_ self) j)
        as (b & Hb & _); [rewrite <- HU; by eapply list_elem_of_lookup_2 |].
      destruct (lookup_lt_is_Some_2 u j) as [uj Huj];
        [rewrite Hu, <- Hub; by eapply lookup_lt_Some |].
      rewrite run_bind, (run_at _ _ _ _ Hj), run_bind, (run_at _ _ _ _ Huj),
        run_bind, (run_at _ _ _ _ Hb).
      unfold upper_row. by rewrite (nth_lookup_Some _ _ _ Huj), (nth_lookup_Some _ _ _ Hb).
  - simpl. rewrite length_fmap. lia.
  - intros i v s Hv. rewrite list_lookup_fmap in Hv.
    destruct (L !! i) as [j |] eqn:Hj; [| done]. injection Hv as <-.
    destruct (indices_where_lt is_finite (ControlBound.lower_bound_ self) j)
      as (l & Hl & _); [rewrite <- HL; by eapply list_elem_of_lookup_2 |].
    destruct (lookup_lt_is_Some_2 u j) as [uj Huj];
      [rewrite Hu, <- Hlb; by eapply lookup_lt_Some |].
    rewrite run_bind, (run_at _ _ _ _ Hj), run_bind, (run_at _ _ _ _ Hl),
      run_bind, (run_at _ _ _ _ Huj).
    unfold lower_row. rewrite (nth_lookup_Some _ _ _ Huj), (nth_lookup_Some _ _ _ Hl).
    by rewrite Nat.add_0_r.
Qed.

(** X12.  [ControlBound::Evaluate] and [ControlBound::Jacobian] abort on a
    control vector whose size is not the control dimension, and leave their
    output buffer untouched. *)
Theorem ControlBound_rejects_control_size (self : ControlBound.t)
    (x u c : VectorXd) (jac : MatrixXd) :
  length u <> ControlBound.m_ self ->
  ControlBound.Evaluate self x u c
    = (Abort "Inconsistent control dimension when evaluating control bound.", c)
  /\ ControlBound.Jacobian self x u jac
    = (Abort "Inconsistent control dimension when evaluating control bound.", jac).
Proof.
  intros Hne%Nat.eqb_neq.
  unfold ControlBound.Evaluate, ControlBound.Jacobian. run. by rewrite Hne.
Qed.

Lemma run_set_coeff2 (a : MatrixXd) (i j : nat) (r : list double) (v : double) :
  a !! i = Some r -> (j < length r)%nat ->
  set_coeff2 i j v a = (Ok tt, <[i := <[j := v]> r]> a).
Proof. intros Hr Hj. unfold set_coeff2. by rewrite Hr, decide_True. Qed.

(** A loop that assigns [v] to one coefficient of each of consecutive rows,
    from row [offset] on, at the columns [cols]. *)
Lemma for_loop_scatter (cols : list nat) (offset : nat) (v : double)
    (body : nat -> M MatrixXd unit) (R C : nat) (a : MatrixXd) :
  has_shape R C a ->
  (offset + length cols <= R)%nat ->
  Forall (fun j => j < C)%nat cols ->
  (forall i j s, cols !! i = Some j -> body i s = set_coeff2 (i + offset) j v s) ->
  exists a',
    for_range (length cols) body a = (Ok tt, a')
    /\ has_shape R C a'
    /\ forall r c, coeff a' r c
                   = if decide (offset <= r /\ cols !! (r - offset) = Some c)%nat
                     then Some v else coeff a r c.
Proof.
  intros Hshape Hrows Hcols Hbody. unfold for_range.
  destruct (for_loop_invariant
    (fun i s => has_shape R C s
       /\ forall r c, coeff s r c
            = if decide (offset <= r /\ r - offset < i /\ cols !! (r - offset) = Some c)%nat
              then Some v else coeff a r c)
    body (length cols) 0%nat a) as (a' & Hrun & Hshape' & Hcoeff).
  - intros i s [_ Hi] [Hs Hco]. simpl in Hi.
    destruct (lookup_lt_is_Some_2 cols i Hi) as [j Hj].
    assert (HjC : (j < C)%nat) by (by eapply (Forall_lookup_1 _ _ _ _ Hcols)).
    destruct (lookup_lt_is_Some_2 s (i + offset)) as [row Hrow]; [destruct Hs; lia |].
    assert (Hlr : length row = C)
      by (destruct Hs as [_ Hs]; by eapply (Forall_lookup_1 _ _ _ _ Hs)).
    exists (<[(i + offset)%nat := <[j := v]> row]> s). split; [| split].
    + rewrite (Hbody _ _ _ Hj). apply run_set_coeff2; [done | lia].
    + by apply has_shape_insert.
    + intros r c. rewrite coeff_insert by (done || lia). rewrite Hco.
      destruct (decide (r = (i + offset)%nat /\ c = j)) as [[-> ->] | Hne].
      * rewrite decide_True; [done |].
        replace (i + offset - offset)%nat with i by lia. split; [lia |]. split; [lia | done].
      * destruct (decide (offset <= r /\ r - offset < i /\ cols !! (r - offset) = Some c)%nat)
          as [(H1 & H2 & H3) | Hn1].
        -- rewrite decide_True; [done |]. split; [done |]. split; [lia | done].
        -- rewrite decide_False; [done |]. intros (H1 & H2 & H3). apply Hn1.
           split; [done |]. split; [| done].
           destruct (decide (r - offset = i)%nat) as [Heq | Hneq]; [| lia].
           exfalso. apply Hne. split; [lia |]. rewrite Heq in H3. congruence.
  - split; [done |]. intros r c. rewrite decide_False; [done | lia].
  - exists a'. split; [done |]. split; [done |].
    intros r c. rewrite Hcoeff. simpl.
    destruct (decide (offset <= r /\ cols !! (r - offset) = Some c)%nat) as [[H1 H2] | Hn].
    + rewrite decide_True; [done |]. split; [done |]. split; [| done].
      by eapply lookup_lt_Some.
    + rewrite decide_False; [done |]. intros (H1 & _ & H3). by apply Hn.
Qed.

Lemma has_shape_setZero (R C : nat) (a : MatrixXd) :
  has_shape R C a ->
  has_shape R C ((fun r : list double => replicate (length r) 0) <$> a).
Proof.
  intros [Hr Hc]. split; [by rewrite length_fmap |].
  rewrite Forall_fmap. eapply Forall_impl; [exact Hc |].
  intros r Hl. simpl. by rewrite length_replicate.
Qed.

Lemma coeff_has_shape (R C : nat) (a : MatrixXd) (r c : nat) :
  has_shape R C a -> (r < R)%nat -> (c < C)%nat -> is_Some (coeff a r c).
Proof.
  intros [Hr Hc] Hlt Hlt'. unfold coeff.
  destruct (lookup_lt_is_Some_2 a r) as [row Hrow]; [lia |].
  rewrite Hrow. simpl. apply lookup_lt_is_Some_2.
  by rewrite (Forall_lookup_1 _ _ _ _ Hc Hrow).
Qed.

(** X13.  On a buffer of [OutputDimension] rows and [n + m] columns
    [ControlBound::Jacobian] completes and leaves, whatever the buffer held,
    [-1] in the row of each finite lower bound at column [n + j] of its
    control [j], [1] likewise in the row of each finite upper bound, and [0]
    in every other coefficient. *)
Theorem ControlBound_Jacobian_entries (self : ControlBound.t) (x u : VectorXd)
    (jac : MatrixXd) :
  consistent self ->
  length u = ControlBound.m_ self ->
  has_shape (ControlBound.OutputDimension self) (length x + ControlBound.m_ self) jac ->
  exists jac',
    ControlBound.Jacobian self x u jac = (Ok tt, jac')
    /\ has_shape (ControlBound.OutputDimension self)
         (length x + ControlBound.m_ self) jac'
    /\ forall r c,
         (r < ControlBound.OutputDimension self)%nat ->
         (c < length x + ControlBound.m_ self)%nat ->
         coeff jac' r c = Some (bound_jacobian_entry self (length x) r c).
Proof.
  intros (Hlb & Hub & HL & HU) Hu Hshape.
  unfold ControlBound.OutputDimension in *.
  set (L := ControlBound.index_lower_bound_ self) in *.
  set (U := ControlBound.index_upper_bound_ self) in *.
  set (n := length x) in *. set (m := ControlBound.m_ self) in *.
  pose proof (has_shape_setZero _ _ _ Hshape) as Hshape0.
  set (a0 := (fun r : list double => replicate (length r) 0) <$> jac) in *.
  assert (HLm : Forall (fun j => j < n + m)%nat ((fun j => n + j)%nat <$> L)).
  { rewrite Forall_fmap. apply Forall_forall. intros j Hj. simpl.
    rewrite HL in Hj. apply indices_where_lt in Hj as (b & Hb%lookup_lt_Some & _). lia. }
  assert (HUm : Forall (fun j => j < n + m)%nat ((fun j => n + j)%nat <$> U)).
  { rewrite Forall_fmap. apply Forall_forall. intros j Hj. simpl.
    rewrite HU in Hj. apply indices_where_lt in Hj as (b & Hb%lookup_lt_Some & _). lia. }
  destruct (for_loop_scatter ((fun j => n + j)%nat <$> L) 0 (-1)
              (fun i => j ← at_ L i; set_coeff2 i (n + j) (-1))
              _ _ a0 Hshape0) as (a1 & Hrun1 & Hshape1 & Hco1); [| done | |].
  { rewrite length_fmap. lia. }
  { intros i j s Hj. rewrite list_lookup_fmap in Hj.
    destruct (L !! i) as [j' |] eqn:Hj'; [| done]. injection Hj as <-.
    by rewrite run_bind, (run_at _ _ _ _ Hj'), Nat.add_0_r. }
  destruct (for_loop_scatter ((fun j => n + j)%nat <$> U) (length L) 1
              (fun i => j ← at_ U i; set_coeff2 (i + length L) (n + j) 1)
              _ _ a1 Hshape1) as (a2 & Hrun2 & Hshape2 & Hco2); [| done | |].
  { rewrite length_fmap. lia. }
  { intros i j s Hj. rewrite list_lookup_fmap in Hj.
    destruct (U !! i) as [j' |] eqn:Hj'; [| done]. injection Hj as <-.
    by rewrite run_bind, (run_at _ _ _ _ Hj'). }
  rewrite length_fmap in Hrun1, Hrun2.
  exists a2. split; [| split; [done |]].
  - unfold ControlBound.Jacobian.
    rewrite run_bind, Hu, Nat.eqb_refl, run_assert_true, run_bind.
    unfold Matrix_setZero, modify at 1. fold a0. fold L U n.
    rewrite run_bind, Hrun1. exact Hrun2.
  - intros r c Hr Hc. rewrite Hco2, Hco1. unfold bound_jacobian_entry. fold L U.
    assert (H0 : coeff a0 r c = Some 0).
    { unfold a0. rewrite coeff_setZero.
      by destruct (coeff_has_shape _ _ jac r c Hshape Hr Hc) as [y ->]. }
    rewrite H0, Nat.sub_0_r, !list_lookup_fmap.
    destruct (L !! r) as [j |] eqn:HLr; simpl.
    + apply lookup_lt_Some in HLr as Hlt.
      repeat case_decide; destruct_and?; simplify_eq; try done; try lia.
      all: match goal with H : ¬ _ |- _ => exfalso; apply H; by split; [lia |] end.
    + apply lookup_ge_None in HLr.
      destruct (U !! (r - length L)%nat) as [j |] eqn:HUr; simpl.
      * repeat case_decide; destruct_and?; simplify_eq; try done; try lia.
        all: match goal with H : ¬ _ |- _ => exfalso; apply H; by split; [lia |] end.
      * repeat case_decide; destruct_and?; simplify_eq; try done.
Qed.

(** ** The goal constraint *)

Lemma GoalConstraint_Evaluate_run (self : GoalConstraint.t) (x u c : VectorXd) :
  length x = length (GoalConstraint.xf_ self) -> length c = length x ->
  GoalConstraint.Evaluate self x u c
  = (Ok tt, zip_with PrimFloat.sub x (GoalConstraint.xf_ self)).
Proof.
  intros Hx Hc. unfold GoalConstraint.Evaluate. run.
  by rewrite Hx, Hc, Hx, !Nat.eqb_refl.
Qed.

Lemma Forall_zip_with_sub (P : double -> Prop) (Q : double -> double -> Prop)
    (x g : list double) :
  length x = length g ->
  (forall xi gi, gi ∈ g -> (P (xi - gi) <-> Q xi gi)) ->
  Forall P (zip_with PrimFloat.sub x g) <-> Forall2 Q x g.
Proof.
  revert g. induction x as [| xi x IH]; intros [| gi g] Hlen HPQ; simpl in *; try done.
  rewrite Forall_cons, Forall2_cons.
  rewrite (HPQ xi gi) by (by left).
  rewrite IH; [done | lia |]. intros ? ? ?. apply HPQ. by right.
Qed.

(** X14.  For a goal with finite coordinates [GoalConstraint::Evaluate]
    writes [OutputDimension] values, all of them [== 0] exactly when the
    state equals the goal coordinate by coordinate; at the goal itself the
    value is the zero vector, which lies in the cone of equality
    constraints. *)
Theorem GoalConstraint_vanishes_at_goal (self : GoalConstraint.t) (x u c : VectorXd) :
  length x = length (GoalConstraint.xf_ self) ->
  length c = length x ->
  Forall (fun g => is_finite g = true) (GoalConstraint.xf_ self) ->
  exists c',
    GoalConstraint.Evaluate self x u c = (Ok tt, c')
    /\ length c' = GoalConstraint.OutputDimension self
    /\ (Forall (fun y => (y =? 0) = true) c'
        <-> Forall2 (fun xi gi => (xi =? gi) = true) x (GoalConstraint.xf_ self))
    /\ (x = GoalConstraint.xf_ self -> in_cone Zero c').
Proof.
  intros Hx Hc Hfin. eexists. split; [by apply GoalConstraint_Evaluate_run |].
  split; [| split].
  - rewrite length_zip_with. unfold GoalConstraint.OutputDimension. lia.
  - apply Forall_zip_with_sub; [done |]. intros xi gi Hgi.
    rewrite sub_eqb_zero; [done |].
    rewrite Forall_forall in Hfin. rewrite (Hfin gi Hgi). apply orb_true_r.
  - intros ->. simpl. clear Hx Hc.
    induction (GoalConstraint.xf_ self) as [| g gs IH]; simpl; [constructor |].
    apply Forall_cons in Hfin as [Hg Hgs]. constructor; [by apply sub_self | by apply IH].
Qed.

(** X15.  [GoalConstraint::Jacobian] completes on a buffer of any shape,
    square or not, keeps the shape and writes [1] on the diagonal and [0] in
    every other coefficient, whatever the buffer held and whatever [x] and
    [u] are. *)
Theorem GoalConstraint_Jacobian_entries (self : GoalConstraint.t) (x u : VectorXd)
    (jac : MatrixXd) :
  exists jac',
    GoalConstraint.Jacobian self x u jac = (Ok tt, jac')
    /\ (forall R C, has_shape R C jac -> has_shape R C jac')
    /\ (forall i j, coeff jac' i j
                    = (fun _ => if decide (i = j) then 1 else 0) <$> coeff jac i j).
Proof.
  eexists. split; [reflexivity |]. split.
  - intros R C [HR HC]. split; [by rewrite length_imap |].
    apply Forall_forall. intros row Hrow.
    apply list_elem_of_lookup in Hrow as [i Hi].
    rewrite list_lookup_imap in Hi.
    destruct (jac !! i) as [r |] eqn:Hr; [| done]. injection Hi as <-.
    rewrite length_imap. by apply (Forall_lookup_1 _ _ _ _ HC Hr).
  - apply coeff_setIdentity.
Qed.

(** ** Integers as doubles *)

Section IntToDouble.

Local Open Scope Z_scope.

Lemma digits2_pos_iter_xO (m d : positive) :
  digits2_pos (Pos.iter xO m d) = (digits2_pos m + d)%positive.
Proof.
  apply (Pos.iter_ind positive xO m
           (fun d r => digits2_pos r = (digits2_pos m + d)%positive)).
  - simpl. lia.
  - intros p r Hr. simpl. rewrite Hr. lia.
Qed.

(** A canonical mantissa is left alone by rounding. *)
Lemma binary_round_aux_canonical (s : bool) (m : positive) (e : Z) :
  canonical_mantissa prec emax m e = true -> e <= emax - prec ->
  binary_round_aux prec emax s (Z.pos m) e loc_Exact = S754_finite s m e.
Proof.
  unfold canonical_mantissa. intros Hc%Z.eqb_eq He.
  assert (Hshr : shr_fexp prec emax (Z.pos m) e loc_Exact
                 = (shr_record_of_loc (Z.pos m) loc_Exact, e)).
  { unfold shr_fexp. simpl Zdigits2.
    replace (IntDef.Z.sub (fexp prec emax (IntDef.Z.add (Z.pos (digits2_pos m)) e)) e)
      with 0 by (change IntDef.Z.sub with Z.sub; change IntDef.Z.add with Z.add; lia).
    reflexivity. }
  unfold binary_round_aux. rewrite Hshr. simpl. rewrite Hshr. simpl.
  apply Z.leb_le in He. by rewrite He.
Qed.

(** Integers below [2^53] convert exactly: to a finite positive double. *)
Lemma binary_normalize_small (z : Z) :
  0 < z < 2 ^ 53 ->
  exists m e, binary_normalize prec emax z 0 false = S754_finite false m e /\ e <= 0.
Proof.
  intros [Hpos Hlt]. destruct z as [| p | p]; try lia. simpl binary_normalize.
  pose proof (digits2_pos_bounds p) as [Hlo _].
  assert (Hd : Z.pos (digits2_pos p) <= 53).
  { destruct (Z.le_gt_cases (Z.pos (digits2_pos p)) 53) as [H | H]; [done |].
    assert (2 ^ 53 <= 2 ^ (Z.pos (digits2_pos p) - 1)) by (apply Z.pow_le_mono_r; lia).
    lia. }
  unfold binary_round.
  assert (Hf : fexp prec emax (IntDef.Z.add (Z.pos (digits2_pos p)) 0)
               = Z.pos (digits2_pos p) - 53).
  { change IntDef.Z.add with Z.add. unfold fexp, SpecFloat.emin, prec, emax.
    change IntDef.Z.sub with Z.sub. lia. }
  rewrite Hf. unfold shl_align.
  change (IntDef.Z.sub (Z.pos (digits2_pos p) - 53) 0)
    with (Z.pos (digits2_pos p) - 53 - 0).
  destruct (Z.pos (digits2_pos p) - 53 - 0) as [| k | k] eqn:Hk; try lia.
  - exists p, 0. split; [| lia]. apply binary_round_aux_canonical.
    + unfold canonical_mantissa. apply Z.eqb_eq.
      unfold fexp, SpecFloat.emin, prec, emax. lia.
    + unfold prec, emax. lia.
  - exists (Pos.iter xO p k), (Z.pos (digits2_pos p) - 53). split; [| lia].
    apply binary_round_aux_canonical.
    + unfold canonical_mantissa. apply Z.eqb_eq. rewrite digits2_pos_iter_xO.
      unfold fexp, SpecFloat.emin, prec, emax. lia.
    + unfold prec, emax. lia.
Qed.

End IntToDouble.

Lemma double_of_int_pos (z : Z) :
  (0 < z < 2 ^ 53)%Z ->
  exists m e, Prim2SF (double_of_int z) = S754_finite false m e /\ (e <= 0)%Z.
Proof.
  intros Hz. unfold double_of_int.
  destruct (z <? 0)%Z eqn:E; [apply Z.ltb_lt in E; lia |].
  rewrite of_uint63_spec, Uint63.of_Z_spec.
  rewrite Z.mod_small; [by apply binary_normalize_small |].
  split; [lia |]. transitivity (2 ^ 53)%Z; [lia | reflexivity].
Qed.

(** A positive integer bound [b] below [2^53] is finite, and so is [-b];
    and [-b <= b]. *)
Lemma double_of_int_bound (z : Z) :
  (0 < z < 2 ^ 53)%Z ->
  is_finite (double_of_int z) = true
  /\ is_finite (- double_of_int z) = true
  /\ (- double_of_int z <=? double_of_int z) = true.
Proof.
  intros (m & e & Hb & He)%double_of_int_pos.
  unfold is_finite. rewrite !ltb_spec, leb_spec, !abs_spec, !opp_spec, Hb.
  replace (Prim2SF DBL_MAX) with (SFmax_float prec emax) by reflexivity.
  unfold SFmax_float.
  generalize (Pos.iter xO 1 (Z.to_pos prec) - 1)%positive as M. intros M.
  unfold SFopp, SFabs, SFltb, SFleb, SFcompare.
  assert (Hlt : (e ?= emax - prec)%Z = Lt)
    by (apply Z.compare_lt_iff; unfold emax, prec; lia).
  by rewrite Hlt.
Qed.

(** ** The triple-integrator problem *)

Lemma insert_filled {A : Type} (f : nat -> A) (w : A) (i n : nat) :
  (i < n)%nat ->
  <[i := f i]> ((f <$> seq 0 i) ++ replicate (n - i) w)
  = (f <$> seq 0 (S i)) ++ replicate (n - S i) w.
Proof.
  intros Hi. rewrite insert_app_r_alt by (rewrite length_fmap, length_seq; lia).
  rewrite length_fmap, length_seq, Nat.sub_diag.
  replace (n - i)%nat with (S (n - S i)) by lia.
  rewrite seq_S, fmap_app, <- app_assoc. reflexivity.
Qed.

Lemma TripleIntegratorProblem_new_run (dof : nat) :
  TripleIntegratorProblem.new dof
  = Ok (TripleIntegratorProblem.Build 10
          ((goal_coordinate <$> seq 0 dof) ++ replicate (2 * dof) 0)
          ((start_coordinate <$> seq 0 dof) ++ replicate (2 * dof) 0)
          (control_limit <$> seq 0 dof)).
Proof.
  unfold TripleIntegratorProblem.new, TripleIntegratorProblem.ctor_body, for_range.
  destruct (for_loop_invariant
    (fun i s =>
       s = TripleIntegratorProblem.Build 10
             ((goal_coordinate <$> seq 0 i) ++ replicate (3 * dof - i) 0)
             ((start_coordinate <$> seq 0 i) ++ replicate (3 * dof - i) 0)
             ((control_limit <$> seq 0 i) ++ replicate (dof - i) 0))
    (fun i =>
       zoom TripleIntegratorProblem.xf TripleIntegratorProblem.set_xf
         (set_coeff i (double_of_int (Z.of_nat i + 1)));;
       zoom TripleIntegratorProblem.x0 TripleIntegratorProblem.set_x0
         (set_coeff i (double_of_int (- (Z.of_nat i + 1))));;
       zoom TripleIntegratorProblem.ubnd TripleIntegratorProblem.set_ubnd
         (set_coeff i (double_of_int (100 * (Z.of_nat i + 1)))))
    dof 0%nat (TripleIntegratorProblem.init dof)) as (s' & Hrun & Hs').
  - intros i s [_ Hi] ->. simpl in Hi. eexists. split.
    + run. simpl.
      do 3 (rewrite run_set_coeff
        by (rewrite length_app, length_fmap, length_seq, length_replicate; lia);
        simpl).
      reflexivity.
    + unfold TripleIntegratorProblem.set_xf, TripleIntegratorProblem.set_x0,
        TripleIntegratorProblem.set_ubnd. simpl.
      fold (goal_coordinate i) (start_coordinate i) (control_limit i).
      by rewrite !insert_filled by lia.
  - unfold TripleIntegratorProblem.init. simpl. by rewrite !Nat.sub_0_r.
  - revert Hrun. run. intros ->. rewrite Hs'. simpl.
    replace (dof + (dof + (dof + 0)) - dof)%nat with (dof + (dof + 0))%nat by lia.
    by rewrite Nat.sub_diag, app_nil_r.
Qed.

Lemma insert_replicate_front {A : Type} (v w : A) (i n : nat) :
  (i < n)%nat ->
  <[i := v]> (replicate i v ++ replicate (n - i) w)
  = replicate (S i) v ++ replicate (n - S i) w.
Proof.
  intros Hi. rewrite insert_app_r_alt by (rewrite length_replicate; lia).
  rewrite length_replicate, Nat.sub_diag.
  replace (n - i)%nat with (S (n - S i)) by lia.
  rewrite (replicate_S_end i), <- app_assoc. reflexivity.
Qed.

Lemma alter_replicate_front {A : Type} (g : A -> A) (w : A) (i n : nat) :
  (i < n)%nat ->
  alter g i (replicate i (g w) ++ replicate (n - i) w)
  = replicate (S i) (g w) ++ replicate (n - S i) w.
Proof.
  intros Hi. rewrite alter_app_r_alt by (rewrite length_replicate; lia).
  rewrite length_replicate, Nat.sub_diag.
  replace (n - i)%nat with (S (n - S i)) by lia.
  rewrite (replicate_S_end i), <- app_assoc. reflexivity.
Qed.

Lemma control_limit_bound (dof i : nat) :
  (100 * Z.of_nat dof < 2 ^ 31)%Z -> (i < dof)%nat ->
  is_finite (control_limit i) = true
  /\ is_finite (- control_limit i) = true
  /\ (- control_limit i <=? control_limit i) = true.
Proof.
  intros Hdof Hi. apply double_of_int_bound. split; [lia |].
  apply Z.lt_trans with (2 ^ 31)%Z; [lia | reflexivity].
Qed.

Lemma opp_leb_self (b : double) : (- b <=? b) = (0 <=? b).
Proof.
  rewrite !leb_spec, opp_spec. change (Prim2SF 0) with (S754_zero false).
  by destruct (Prim2SF b) as [[|] | [|] | | [|] m e].
Qed.

(** X16.  While [100 * dof] fits an [int], the constructor of
    [TripleIntegratorProblem<dof>] writes within its vectors and leaves
    [N = 10], a goal and a start of [3 * dof] coordinates with [xf_i = i + 1]
    and [x0_i = -(i + 1)] for [i < dof] and zeros after, and [dof] control
    limits [100 * (i + 1)], each a finite double that is not negative. *)
Theorem TripleIntegratorProblem_constructor (dof : nat) :
  (100 * Z.of_nat dof < 2 ^ 31)%Z ->
  exists self,
    TripleIntegratorProblem.new dof = Ok self
    /\ TripleIntegratorProblem.N self = 10%nat
    /\ length (TripleIntegratorProblem.xf self) = (3 * dof)%nat
    /\ length (TripleIntegratorProblem.x0 self) = (3 * dof)%nat
    /\ length (TripleIntegratorProblem.ubnd self) = dof
    /\ (forall i, (i < dof)%nat ->
          TripleIntegratorProblem.xf self !! i = Some (double_of_int (Z.of_nat i + 1))
          /\ TripleIntegratorProblem.x0 self !! i = Some (- double_of_int (Z.of_nat i + 1))
          /\ exists b, TripleIntegratorProblem.ubnd self !! i = Some b
                       /\ b = double_of_int (100 * (Z.of_nat i + 1))
                       /\ is_finite b = true /\ (0 <=? b) = true)
    /\ (forall i, (dof <= i < 3 * dof)%nat ->
          TripleIntegratorProblem.xf self !! i = Some 0
          /\ TripleIntegratorProblem.x0 self !! i = Some 0).
Proof.
  intros Hint. eexists. split; [apply TripleIntegratorProblem_new_run |]. simpl.
  split; [done |].
  split; [rewrite length_app, length_fmap, length_seq, length_replicate; lia |].
  split; [rewrite length_app, length_fmap, length_seq, length_replicate; lia |].
  split; [by rewrite length_fmap, length_seq |].
  split.
  - intros i Hi. split; [| split].
    + rewrite lookup_app_l by (rewrite length_fmap, length_seq; lia).
      by rewrite list_lookup_fmap, lookup_seq_lt.
    + rewrite lookup_app_l by (rewrite length_fmap, length_seq; lia).
      rewrite list_lookup_fmap, lookup_seq_lt by lia. simpl. f_equal.
      unfold start_coordinate, double_of_int.
      replace (- (Z.of_nat i + 1) <? 0)%Z with true by (symmetry; apply Z.ltb_lt; lia).
      replace (Z.of_nat i + 1 <? 0)%Z with false by (symmetry; apply Z.ltb_ge; lia).
      by rewrite Z.opp_involutive.
    + exists (control_limit i). rewrite list_lookup_fmap, lookup_seq_lt by lia.
      split; [done |]. split; [done |].
      destruct (control_limit_bound dof i Hint Hi) as (Hfin & _ & Hle).
      split; [done |]. by rewrite <- opp_leb_self.
  - intros i Hi.
    rewrite !lookup_app_r by (rewrite length_fmap, length_seq; lia).
    rewrite !length_fmap, !length_seq.
    split; apply lookup_replicate_2; lia.
Qed.

Section TripleIntegratorFacts.

Context {Cost Dyn : Type} (StateDimension : Dyn -> nat).
Implicit Types (p : Problem.t Cost Dyn) (self : TripleIntegratorProblem.t).

Lemma SetCostFunction_loop (cost : Cost) (n N : nat) (x : VectorXd)
    (md : list (option Dyn)) e ie :
  (n <= S N)%nat ->
  for_range n (fun k => Problem.SetCostFunction (Some cost) k)
    (Problem.Build N x (replicate (S N) None) md e ie)
  = (Ok tt, Problem.Build N x (replicate n (Some cost) ++ replicate (S N - n) None) md e ie).
Proof.
  intros Hn. unfold for_range.
  destruct (for_loop_invariant
    (fun i p => p = Problem.Build N x
                      (replicate i (Some cost) ++ replicate (S N - i) None) md e ie)
    (fun k => Problem.SetCostFunction (Some cost) k) n 0%nat
    (Problem.Build N x (replicate (S N) None) md e ie)) as (p' & Hrun & ->).
  - intros i p [_ Hi] ->. simpl in Hi. eexists. split.
    + unfold Problem.SetCostFunction. run. simpl.
      replace (i <=? N)%nat with true by (symmetry; apply Nat.leb_le; lia). reflexivity.
    + by rewrite insert_replicate_front by lia.
  - done.
  - exact Hrun.
Qed.

Lemma SetDynamics_loop (model : Dyn) (n N : nat) (x : VectorXd)
    (cf : list (option Cost)) e ie :
  (n <= N)%nat ->
  for_range n (fun k => Problem.SetDynamics (Some model) k)
    (Problem.Build N x cf (replicate N None) e ie)
  = (Ok tt, Problem.Build N x cf (replicate n (Some model) ++ replicate (N - n) None) e ie).
Proof.
  intros Hn. unfold for_range.
  destruct (for_loop_invariant
    (fun i p => p = Problem.Build N x cf
                      (replicate i (Some model) ++ replicate (N - i) None) e ie)
    (fun k => Problem.SetDynamics (Some model) k) n 0%nat
    (Problem.Build N x cf (replicate N None) e ie)) as (p' & Hrun & ->).
  - intros i p [_ Hi] ->. simpl in Hi. eexists. split.
    + unfold Problem.SetDynamics. run. simpl.
      replace (i <? N)%nat with true by (symmetry; apply Nat.ltb_lt; lia). reflexivity.
    + by rewrite insert_replicate_front by lia.
  - simpl. by rewrite Nat.sub_0_r.
  - exact Hrun.
Qed.

Lemma SetConstraint_loop (c : Constraint NegOrthant) (n N : nat) (x : VectorXd)
    (cf : list (option Cost)) (md : list (option Dyn)) e :
  (n <= S N)%nat -> (0 < OutputDimension c)%nat ->
  for_range n (fun k => Problem.SetConstraint Problem.Inequality (Some c) k)
    (Problem.Build N x cf md e (replicate (S N) []))
  = (Ok tt, Problem.Build N x cf md e (replicate n [c] ++ replicate (S N - n) [])).
Proof.
  intros Hn Hc. unfold for_range.
  destruct (for_loop_invariant
    (fun i p => p = Problem.Build N x cf md e
                      (replicate i [c] ++ replicate (S N - i) []))
    (fun k => Problem.SetConstraint Problem.Inequality (Some c) k) n 0%nat
    (Problem.Build N x cf md e (replicate (S N) []))) as (p' & Hrun & ->).
  - intros i p [_ Hi] ->. simpl in Hi. eexists. split.
    + apply (SetConstraint_run Problem.Inequality c); simpl; [done | lia].
    + simpl. f_equal.
      exact (alter_replicate_front (fun cons => cons ++ [c]) [] i (S N) ltac:(lia)).
  - done.
  - exact Hrun.
Qed.

Lemma fill_bounds_run (dof : nat) self :
  length (TripleIntegratorProblem.ubnd self) = dof ->
  TripleIntegratorProblem.fill_bounds dof self ([], [])
  = (Ok tt, (PrimFloat.opp <$> TripleIntegratorProblem.ubnd self,
             TripleIntegratorProblem.ubnd self)).
Proof.
  intros Hlen. unfold TripleIntegratorProblem.fill_bounds, for_range.
  destruct (for_loop_invariant
    (fun i s => s = (PrimFloat.opp <$> take i (TripleIntegratorProblem.ubnd self),
                     take i (TripleIntegratorProblem.ubnd self)))
    (fun i => b ← at_ (TripleIntegratorProblem.ubnd self) i;
              modify (fun lbub => (lbub.1 ++ [- b], lbub.2 ++ [b])))
    dof 0%nat ([], [])) as (s' & Hrun & ->).
  - intros i s [_ Hi] ->. simpl in Hi.
    destruct (lookup_lt_is_Some_2 (TripleIntegratorProblem.ubnd self) i) as [b Hb]; [lia |].
    eexists. split.
    + rewrite run_bind, (run_at _ _ _ _ Hb). reflexivity.
    + simpl. rewrite (take_S_r _ _ _ Hb), fmap_app. reflexivity.
  - done.
  - rewrite Hrun. simpl. by rewrite <- Hlen, firstn_all.
Qed.

(** Without constraints [MakeProblem] completes whatever the members hold. *)
Lemma MakeProblem_run_plain (dof : nat) self (qcost qterm : Cost) (model : Dyn) :
  TripleIntegratorProblem.MakeProblem dof self qcost qterm model false
  = Ok (Problem.Build (TripleIntegratorProblem.N self) (TripleIntegratorProblem.x0 self)
          (replicate (TripleIntegratorProblem.N self) (Some qcost) ++ [Some qterm])
          (replicate (TripleIntegratorProblem.N self) (Some model))
          (replicate (S (TripleIntegratorProblem.N self)) [])
          (replicate (S (TripleIntegratorProblem.N self)) [])).
Proof.
  unfold TripleIntegratorProblem.MakeProblem, TripleIntegratorProblem.MakeProblem_body.
  unfold Problem.new. set (N := TripleIntegratorProblem.N self).
  rewrite run_bind, SetCostFunction_loop by lia.
  rewrite run_bind.
  unfold Problem.SetCostFunction at 1. run. simpl. rewrite Nat.leb_refl.
  rewrite insert_app_r_alt by (rewrite length_replicate; lia).
  rewrite length_replicate, Nat.sub_diag.
  replace (S N - N)%nat with 1%nat by lia. simpl.
  fold (for_range N (fun k => Problem.SetDynamics (CostFunction:=Cost) (Some model) k)).
  rewrite SetDynamics_loop by lia. simpl.
  by rewrite Nat.sub_diag, app_nil_r.
Qed.

(** With constraints [MakeProblem] completes once the control bound can be
    built with a row and the goal has a coordinate. *)
Lemma MakeProblem_run_constrained (dof : nat) self (qcost qterm : Cost) (model : Dyn)
    (bnd : Constraint NegOrthant) (goal : Constraint Zero) :
  length (TripleIntegratorProblem.ubnd self) = dof ->
  (match ControlBound.new (PrimFloat.opp <$> TripleIntegratorProblem.ubnd self)
           (TripleIntegratorProblem.ubnd self) with
   | Ok b => ControlBound.as_constraint b
   | Abort _ => None
   end) = Some bnd ->
  (0 < OutputDimension bnd)%nat ->
  GoalConstraint.Create (TripleIntegratorProblem.xf self) = Some goal ->
  (0 < OutputDimension goal)%nat ->
  TripleIntegratorProblem.MakeProblem dof self qcost qterm model true
  = Ok (Problem.Build (TripleIntegratorProblem.N self) (TripleIntegratorProblem.x0 self)
          (replicate (TripleIntegratorProblem.N self) (Some qcost) ++ [Some qterm])
          (replicate (TripleIntegratorProblem.N self) (Some model))
          (replicate (TripleIntegratorProblem.N self) [] ++ [[goal]])
          (replicate (TripleIntegratorProblem.N self) [bnd] ++ [[]])).
Proof.
  intros Hlen Hbnd Hrows Hgoal Hgrows.
  pose proof (MakeProblem_run_plain dof self qcost qterm model) as Hplain.
  unfold TripleIntegratorProblem.MakeProblem, TripleIntegratorProblem.MakeProblem_body in *.
  set (N := TripleIntegratorProblem.N self) in *.
  rewrite run_bind in *.
  destruct (for_range N _ (Problem.new N)) as [[[] |] p1]; [| done].
  rewrite run_bind in *.
  destruct (Problem.SetCostFunction (Some qterm) N p1) as [[[] |] p2]; [| done].
  rewrite run_bind in *.
  destruct (for_range N _ p2) as [[[] |] p3]; [| done].
  rewrite run_bind in *.
  destruct (Problem.SetInitialState (TripleIntegratorProblem.x0 self) p3)
    as [[[] |] p4]; [| done].
  injection Hplain as ->.
  rewrite (fill_bounds_run dof self Hlen).
  destruct (ControlBound.new _ _) as [b |]; [| done].
  rewrite Hbnd. rewrite run_bind.
  rewrite SetConstraint_loop by (done || lia).
  rewrite Hgoal.
  rewrite (SetConstraint_run Problem.Equality goal) by (simpl; done || lia).
  simpl. do 2 f_equal.
  - change ([] :: replicate N []) with (replicate (S N) (@nil (Constraint Zero))).
    rewrite replicate_S_end.
    rewrite alter_app_r_alt by (rewrite length_replicate; lia).
    rewrite length_replicate, Nat.sub_diag. reflexivity.
  - by replace (S N - N)%nat with 1%nat by lia.
Qed.

Lemma indices_where_all (P : double -> bool) (l : list double) : forall first,
  Forall (fun b => P b = true) l -> length (indices_where P first l) = length l.
Proof.
  induction l as [| b l IH]; intros first Hl; [done |].
  apply Forall_cons in Hl as [Hb Hl]. simpl. rewrite Hb. simpl. by rewrite IH.
Qed.

(** The problem [MakeProblem] returns is fully defined when it has a segment
    and the model has the state dimension of the initial state. *)
Lemma IsFullyDefined_filled (n : nat) (x : VectorXd) (qcost qterm : Cost) (model : Dyn) e ie :
  Problem.IsFullyDefined StateDimension
    (Problem.Build n x (replicate n (Some qcost) ++ [Some qterm])
       (replicate n (Some model)) e ie)
  = ((0 <? n)%nat && (length x =? StateDimension model)%nat)%bool.
Proof.
  unfold Problem.IsFullyDefined. simpl.
  destruct n as [| n]; [done |].
  replace (forallb _ _) with true; cycle 1.
  { symmetry. apply forallb_forall. intros k Hk%in_seq.
    apply andb_true_iff. split; apply has_handle_true.
    - exists model. apply lookup_replicate_2. lia.
    - exists qcost. rewrite lookup_app_l by (rewrite length_replicate; lia).
      apply lookup_replicate_2. lia. }
  replace (Problem.has_handle _ _) with true; [done |].
  symmetry. apply has_handle_true. exists qterm.
  rewrite lookup_app_r by (rewrite length_replicate; lia).
  by rewrite length_replicate, Nat.sub_diag.
Qed.

(** X17.  For [dof >= 1] (and [100 * dof] within [int]) and every number of
    segments [n] assigned to [N], [MakeProblem] on the constructed object
    completes, the control bounds it builds being valid.  [NumConstraints] of
    the problem it returns is [2 * dof] at every knot before the last and
    [3 * dof] at the last with [add_constraints], and [0] everywhere
    without; the problem is fully defined exactly when [n > 0] and the model
    has state dimension [3 * dof].  The problem container is the one of
    module [Problem] above, modelled from the specification. *)
Theorem MakeProblem_builds_problem (dof n : nat) (qcost qterm : Cost) (model : Dyn)
    (add_constraints : bool) :
  (1 <= dof)%nat -> (100 * Z.of_nat dof < 2 ^ 31)%Z ->
  exists self p,
    TripleIntegratorProblem.new dof = Ok self
    /\ TripleIntegratorProblem.MakeProblem dof (TripleIntegratorProblem.set_N n self)
         qcost qterm model add_constraints = Ok p
    /\ Problem.N_ p = n
    /\ Problem.initial_state_ p = TripleIntegratorProblem.x0 self
    /\ (forall k, (k < n)%nat ->
          Problem.NumConstraints k p
          = (Ok (if add_constraints then 2 * dof else 0)%nat, p))
    /\ Problem.NumConstraints n p
       = (Ok (if add_constraints then 3 * dof else 0)%nat, p)
    /\ Problem.IsFullyDefined StateDimension p
       = ((0 <? n)%nat && (3 * dof =? StateDimension model)%nat)%bool.
Proof.
  intros Hdof Hint. eexists. 
  rewrite TripleIntegratorProblem_new_run.
  set (self := TripleIntegratorProblem.Build _ _ _ _).
  assert (Hx0 : length (TripleIntegratorProblem.x0 self) = (3 * dof)%nat).
  { simpl. rewrite length_app, length_fmap, length_seq, length_replicate. lia. }
  destruct add_constraints.
  - set (cl := control_limit <$> seq 0 dof).
    assert (Hcl : forall i b, cl !! i = Some b ->
               is_finite b = true /\ is_finite (- b) = true /\ (- b <=? b) = true).
    { intros i b Hb. unfold cl in Hb. apply list_lookup_fmap_Some in Hb as (j & -> & Hj).
      apply lookup_seq in Hj as [-> Hj]. by apply (control_limit_bound dof). }
    assert (Hnew : ControlBound.new (PrimFloat.opp <$> cl) cl
                   = Ok (built (PrimFloat.opp <$> cl) cl)).
    { apply ControlBound_new_ok.
      - by rewrite length_fmap.
      - unfold cl. rewrite !length_fmap, length_seq. lia.
      - intros i l u Hl Hu. rewrite list_lookup_fmap, Hu in Hl. injection Hl as <-.
        by apply (Hcl i). }
    assert (Hrows : ControlBound.OutputDimension (built (PrimFloat.opp <$> cl) cl)
                    = (2 * dof)%nat).
    { unfold ControlBound.OutputDimension, built. simpl.
      rewrite !indices_where_all.
      - unfold cl. rewrite !length_fmap, length_seq. lia.
      - apply Forall_lookup. intros i b Hb. by apply (Hcl i).
      - apply Forall_lookup. intros i b Hb.
        apply list_lookup_fmap_Some in Hb as (b' & -> & Hb'). by apply (Hcl i). }
    set (B := built (PrimFloat.opp <$> cl) cl) in *.
    set (bnd := MkConstraint (K:=NegOrthant) (ControlBound.GetLabel B)
                  (ControlBound.OutputDimension B) (ControlBound.Evaluate B)).
    set (G := GoalConstraint.Build (TripleIntegratorProblem.xf self)).
    set (goal := MkConstraint (K:=Zero) (GoalConstraint.GetLabel G)
                   (GoalConstraint.OutputDimension G) (GoalConstraint.Evaluate G)).
    assert (Hgoal : OutputDimension goal = (3 * dof)%nat).
    { simpl. unfold GoalConstraint.OutputDimension. simpl.
      rewrite length_app, length_fmap, length_seq, length_replicate. lia. }
    eexists. split; [reflexivity |]. split.
    { apply (MakeProblem_run_constrained dof (TripleIntegratorProblem.set_N n self)
               qcost qterm model bnd goal).
      - simpl. by rewrite length_fmap, length_seq.
      - simpl. fold cl. rewrite Hnew. reflexivity.
      - simpl. rewrite Hrows. lia.
      - reflexivity.
      - rewrite Hgoal. lia. }
    split; [done |]. split; [done |]. split; [| split].
    + intros k Hk.
      rewrite (NumConstraints_run _ k [] [bnd]); simpl; [| lia | |].
      * rewrite Hrows. do 2 f_equal. lia.
      * rewrite lookup_app_l by (rewrite length_replicate; lia).
        by apply lookup_replicate_2.
      * rewrite lookup_app_l by (rewrite length_replicate; lia).
        by apply lookup_replicate_2.
    + rewrite (NumConstraints_run _ n [goal] []); [| simpl; lia | |].
      * unfold sum_list_with. rewrite Hgoal. do 2 f_equal. lia.
      * simpl. rewrite lookup_app_r by (rewrite length_replicate; lia).
        by rewrite length_replicate, Nat.sub_diag.
      * simpl. rewrite lookup_app_r by (rewrite length_replicate; lia).
        by rewrite length_replicate, Nat.sub_diag.
    + rewrite IsFullyDefined_filled. change (length _) with (length (TripleIntegratorProblem.x0 self)).
      by rewrite Hx0.
  - eexists. split; [reflexivity |]. split; [apply MakeProblem_run_plain |].
    split; [done |]. split; [done |]. split; [| split].
    + intros k Hk.
      rewrite (NumConstraints_run _ k [] []); [done | simpl; lia | |];
        apply (lookup_replicate_2 (S n)); lia.
    + rewrite (NumConstraints_run _ n [] []); [done | simpl; lia | |];
        apply (lookup_replicate_2 (S n)); lia.
    + rewrite IsFullyDefined_filled. change (length _) with (length (TripleIntegratorProblem.x0 self)).
      by rewrite Hx0.
Qed.

(** X18.  When the member [ubnd] holds a limit that is negative or NaN and
    the problem has a segment, [MakeProblem(true)] aborts in the constructor
    of the control bound, with the message of [ValidateBounds]; without
    constraints [MakeProblem] completes on the same object. *)
Theorem MakeProblem_rejects_bad_limit (dof : nat) self (qcost qterm : Cost) (model : Dyn)
    (i : nat) (b : double) :
  length (TripleIntegratorProblem.ubnd self) = dof ->
  (0 < TripleIntegratorProblem.N self)%nat ->
  TripleIntegratorProblem.ubnd self !! i = Some b -> (0 <=? b) = false ->
  TripleIntegratorProblem.MakeProblem dof self qcost qterm model true
  = Abort "Lower bound isn't less than the upper bound."
  /\ exists p, TripleIntegratorProblem.MakeProblem dof self qcost qterm model false = Ok p.
Proof.
  intros Hlen HN Hb Hneg. split; [| eexists; apply MakeProblem_run_plain].
  pose proof (MakeProblem_run_plain dof self qcost qterm model) as Hplain.
  unfold TripleIntegratorProblem.MakeProblem, TripleIntegratorProblem.MakeProblem_body in *.
  set (N := TripleIntegratorProblem.N self) in *.
  rewrite run_bind in *.
  destruct (for_range N _ (Problem.new N)) as [[[] |] p1]; [| done].
  rewrite run_bind in *.
  destruct (Problem.SetCostFunction (Some qterm) N p1) as [[[] |] p2]; [| done].
  rewrite run_bind in *.
  destruct (for_range N _ p2) as [[[] |] p3]; [| done].
  rewrite run_bind in *.
  destruct (Problem.SetInitialState (TripleIntegratorProblem.x0 self) p3)
    as [[[] |] p4]; [| done].
  rewrite (fill_bounds_run dof self Hlen).
  set (ub := TripleIntegratorProblem.ubnd self) in *.
  assert (Hnew : ControlBound.new (PrimFloat.opp <$> ub) ub
                 = Abort "Lower bound isn't less than the upper bound.").
  { unfold ControlBound.new.
    rewrite ctor_body_run; [| by rewrite length_fmap | rewrite length_fmap; apply lookup_lt_Some in Hb; lia].
    rewrite ValidateBounds_cases by (simpl; by rewrite ?length_fmap).
    simpl. destruct (forallb _ _) eqn:Hall; [| done].
    rewrite forallb_leb_lookup in Hall.
    specialize (Hall i (- b) b). rewrite list_lookup_fmap, Hb in Hall.
    specialize (Hall eq_refl eq_refl). rewrite opp_leb_self in Hall. congruence. }
  rewrite Hnew. rewrite run_bind.
  destruct N as [| N']; [lia |]. reflexivity.
Qed.

End TripleIntegratorFacts.

(** ** The further properties at concrete inputs *)

Lemma Projection_size_mismatch_witness :
  Projection NegOrthant [1; -2] [0] = (Abort "x and x_proj must be the same size", [0]).
Proof.
  apply (Projection_size_mismatch NegOrthant [1; -2] [0]). simpl. lia.
Defined.

Lemma Projection_in_cone_witness :
  exists p, Projection NegOrthant [1; -2] [7; 7] = (Ok tt, p)
            /\ length p = 2%nat
            /\ in_cone NegOrthant p
            /\ p = [0; -2].
Proof.
  apply (Projection_in_cone NegOrthant [1; -2] [7; 7]). reflexivity.
Defined.

Lemma NegativeOrthant_Projection_fixes_cone_witness :
  exists p, NegativeOrthant.Projection [-1; -2] [7; 7] = (Ok tt, p)
            /\ (Forall2 (fun pi vi => (pi =? vi) = true) p [-1; -2]
                <-> in_NegativeOrthant [-1; -2]).
Proof.
  apply (NegativeOrthant_Projection_fixes_cone [-1; -2] [7; 7]). reflexivity.
Defined.

Lemma Jacobian_overwrites_buffer_witness :
  IdentityCone.Jacobian [1] [[5; 5]] = (Abort "Jacobian must be square.", [[5; 5]])
  /\ NegativeOrthant.Jacobian [1] [[5; 5]] = (Abort "Jacobian must be square.", [[5; 5]]).
Proof.
  apply (proj2 (proj2 (Jacobian_overwrites_buffer [1] [[5; 5]]))). simpl. lia.
Defined.

Lemma Hessian_of_every_cone_witness :
  exists msg,
    ZeroCone.Hessian [1; 2] [3] [[5; 5]; [5; 5]] = (Abort msg, [[5; 5]; [5; 5]])
    /\ IdentityCone.Hessian [1; 2] [3] [[5; 5]; [5; 5]] = (Abort msg, [[5; 5]; [5; 5]])
    /\ NegativeOrthant.Hessian [1; 2] [3] [[5; 5]; [5; 5]] = (Abort msg, [[5; 5]; [5; 5]]).
Proof.
  apply (proj2 (Hessian_of_every_cone [1; 2] [3] [[5; 5]; [5; 5]])).
  right. simpl. lia.
Defined.

Lemma ControlBound_rejects_nan_witness :
  exists msg, ControlBound.new [nan; 0] [1; 1] = Abort msg.
Proof.
  apply (ControlBound_rejects_nan [nan; 0] [1; 1] 0). left. reflexivity.
Defined.

Lemma ControlBound_setter_cases_witness :
  ControlBound.SetUpperBound [5; -1] (built [0; 0] [1; infinity])
  = (Abort "Lower bound isn't less than the upper bound.",
     ControlBound.Build 2 [0; 0] [5; -1] [0; 1]%nat [0; 1]%nat).
Proof.
  apply (proj1 (ControlBound_setter_cases (built [0; 0] [1; infinity]) [5; -1]
                  eq_refl eq_refl)).
Defined.

Lemma reachable_invariant_witness :
  consistent (built [-2; neg_infinity] [infinity; 3])
  /\ validated (built [-2; neg_infinity] [infinity; 3])
  /\ ControlBound.OutputDimension (built [-2; neg_infinity] [infinity; 3]) <= Nat.mul 2 2.
Proof.
  apply (reachable_invariant (built [-2; neg_infinity] [infinity; 3])).
  apply (reachable_new [-2; neg_infinity] [infinity; 3]). reflexivity.
Defined.

Lemma ControlBound_Evaluate_prefix_witness :
  ControlBound.Evaluate (built [-2; neg_infinity] [infinity; 3]) [] [1; 5] [0; 0; 9]
  = (Ok tt, [-3; 2; 9]).
Proof.
  apply (ControlBound_Evaluate_prefix
           (built [-2; neg_infinity] [infinity; 3]) [] [1; 5] [0; 0; 9]).
  - repeat split; reflexivity.
  - reflexivity.
  - vm_compute. lia.
Defined.

Lemma ControlBound_rejects_control_size_witness :
  ControlBound.Evaluate (built [-2; neg_infinity] [infinity; 3]) [] [1] [0; 0]
    = (Abort "Inconsistent control dimension when evaluating control bound.", [0; 0])
  /\ ControlBound.Jacobian (built [-2; neg_infinity] [infinity; 3]) [] [1] [[9; 9]; [9; 9]]
    = (Abort "Inconsistent control dimension when evaluating control bound.",
       [[9; 9]; [9; 9]]).
Proof.
  apply (ControlBound_rejects_control_size
           (built [-2; neg_infinity] [infinity; 3]) [] [1] [0; 0] [[9; 9]; [9; 9]]).
  simpl. lia.
Defined.

Lemma ControlBound_Jacobian_entries_witness :
  exists jac',
    ControlBound.Jacobian (built [-2; neg_infinity] [infinity; 3]) [7] [1; 5]
      [[9; 9; 9]; [9; 9; 9]] = (Ok tt, jac')
    /\ jac' = [[0; -1; 0]; [0; 0; 1]].
Proof.
  destruct (ControlBound_Jacobian_entries
              (built [-2; neg_infinity] [infinity; 3]) [7] [1; 5] [[9; 9; 9]; [9; 9; 9]])
    as (jac' & Hrun & _ & _).
  - repeat split; reflexivity.
  - reflexivity.
  - split; [reflexivity | repeat constructor].
  - exists jac'. split; [exact Hrun |].
    vm_compute in Hrun. by injection Hrun.
Defined.

Lemma GoalConstraint_vanishes_at_goal_witness :
  exists c',
    GoalConstraint.Evaluate (GoalConstraint.Build [1; 2]) [1; 2] [] [7; 7] = (Ok tt, c')
    /\ in_cone Zero c'.
Proof.
  destruct (GoalConstraint_vanishes_at_goal (GoalConstraint.Build [1; 2]) [1; 2] [] [7; 7])
    as (c' & Hrun & _ & _ & Hgoal).
  - reflexivity.
  - reflexivity.
  - repeat constructor.
  - exists c'. split; [exact Hrun | by apply Hgoal].
Defined.

Lemma TripleIntegratorProblem_constructor_witness :
  exists self,
    TripleIntegratorProblem.new 2 = Ok self
    /\ TripleIntegratorProblem.ubnd self = [100; 200].
Proof.
  destruct (TripleIntegratorProblem_constructor 2) as (self & Hnew & _); [reflexivity |].
  exists self. split; [exact Hnew |].
  vm_compute in Hnew. by injection Hnew as <-.
Defined.

Lemma MakeProblem_builds_problem_witness :
  exists self p,
    TripleIntegratorProblem.new 2 = Ok self
    /\ TripleIntegratorProblem.MakeProblem (CostFunction:=unit) (DiscreteDynamics:=nat)
         2 (TripleIntegratorProblem.set_N 10 self) tt tt 6%nat true = Ok p
    /\ Problem.NumConstraints 0 p = (Ok 4%nat, p)
    /\ Problem.NumConstraints 10 p = (Ok 6%nat, p)
    /\ Problem.IsFullyDefined (fun n : nat => n) p = true.
Proof.
  destruct (MakeProblem_builds_problem (Cost:=unit) (Dyn:=nat) (fun n : nat => n)
              2 10 tt tt 6%nat true)
    as (self & p & Hnew & Hrun & _ & _ & Hk & HN & Hfull); [lia | reflexivity |].
  exists self, p. split; [exact Hnew |]. split; [exact Hrun |].
  split; [apply (Hk 0%nat); lia |]. split; [exact HN | exact Hfull].
Defined.

Lemma MakeProblem_rejects_bad_limit_witness :
  TripleIntegratorProblem.MakeProblem (CostFunction:=unit) (DiscreteDynamics:=nat)
    2 (TripleIntegratorProblem.Build 10 [1; 2; 0; 0; 0; 0] [-1; -2; 0; 0; 0; 0] [100; -1])
    tt tt 6%nat true
  = Abort "Lower bound isn't less than the upper bound.".
Proof.
  apply (MakeProblem_rejects_bad_limit (Cost:=unit) (Dyn:=nat) 2
           (TripleIntegratorProblem.Build 10 [1; 2; 0; 0; 0; 0] [-1; -2; 0; 0; 0; 0]
              [100; -1])
           tt tt 6%nat 1 (-1)); try reflexivity.
  simpl. lia.
Defined.
